(** * Metrics pipeline and cash reconstruction: a shallow embedding

    Sources embedded here:
    - [src/Dashboard_Data_Pipeline/data_pipeline/HD/Transform/transform_HD_daily_ledger.py]
      ([build_monthly_from_ledger], [load_snapshot_total_eur]);
    - [src/metrics_pipeline.py] (the metric calculators and [run_pipeline]).

    Conventions.
    - A MonthKey ("YYYY-MM") is represented by its ordinal number
      [year * 12 + month - 1] as a [nat]; [pd.to_datetime(.., format="%Y-%m")]
      and the lexicographic order of well-formed "YYYY-MM" strings both agree
      with the order of these ordinals.
    - Numeric cells are rationals [Q]; a missing pandas cell (NaN / None) is
      [None] in an [option Q].
    - [groupby(key).sum()] yields one row per distinct key, keys ascending. *)

From Stdlib Require Import QArith Qround Qabs Lia Lqa String Ascii Bool.
From stdpp Require Import base list sorting strings.

Open Scope Q_scope.

(** ** Shared helpers *)

Abbreviation Month := nat.

(** Sum of a list of rationals (pandas [sum], starting from 0). *)
Fixpoint qsum (l : list Q) : Q :=
  match l with
  | [] => 0
  | x :: t => x + qsum t
  end.

(** The sorted distinct keys that [groupby] produces. *)
Definition group_keys (ks : list Month) : list Month :=
  merge_sort le (remove_dups ks).

(** [df.groupby(key, as_index=False)[val].sum()]. *)
Definition group_sum {A} (key : A -> Month) (val : A -> Q) (xs : list A)
  : list (Month * Q) :=
  map (fun m => (m, qsum (map val (filter (fun x => key x = m) xs))))
      (group_keys (map key xs)).

(** [Series.round(2)]: round to the nearest hundredth, ties to even. *)
Definition round2 (x : Q) : Q :=
  let y := x * 100 in
  let f := Qfloor y in
  let d := y - inject_Z f in
  let r := if negb (Qle_bool (1 # 2) d) then f
           else if negb (Qle_bool d (1 # 2)) then (f + 1)%Z
           else if Z.even f then f else (f + 1)%Z in
  inject_Z r / 100.

(** ** Cash balance reconstructor
    ([transform_HD_daily_ledger.py]) *)
Module Ledger.

(** One raw entry of a month window; [None] stands for a key that is absent
    (or null), which [e.get(.., default)] and [or 0] turn into the default. *)
Record RawEntry := mkRawEntry {
  re_account : option string;
  re_debit : option Q;
  re_credit : option Q
}.

Record Window := mkWindow {
  w_month : Month;
  w_entries : list RawEntry
}.

(** A flattened row [{month, account, debit, credit}]. *)
Record LedgerEntry := mkLedgerEntry {
  le_month : Month;
  le_account : string;
  le_debit : Q;
  le_credit : Q
}.

(** One record of the treasury accounts snapshot: field name and value
    ([None] when [pd.to_numeric(.., errors="coerce")] gives NaN). *)
Definition SnapshotRecord := list (string * option Q).

(** The two input files; [None] when the file does not exist. *)
Record Files := mkFiles {
  raw_ledger : option (list Window);
  raw_snapshot : option (list SnapshotRecord)
}.

Inductive Error :=
| FileNotFoundError (path : string)
| ValueError (msg : string)
| IndexError.

Definition RAW_LEDGER : string :=
  "data/INPUT/holded_treasury/raw/holded_treasury_dailyledger_month_windows.json".
Definition RAW_SNAPSHOT : string :=
  "data/INPUT/holded_treasury/raw/holded_treasury_raw.json".

(** Flatten entries into (month, account, debit, credit). *)
Definition flatten (windows : list Window) : list LedgerEntry :=
  flat_map (fun w =>
    map (fun e => mkLedgerEntry (w_month w)
                    (default "" (re_account e))
                    (default 0 (re_debit e))
                    (default 0 (re_credit e)))
        (w_entries w)) windows.

(** [df["account"].str.startswith("57")]. *)
Definition is_cash_account (le : LedgerEntry) : bool :=
  String.prefix "57" (le_account le).

(** [monthly_change]: group the 57* entries by month, summing
    [debit - credit], sorted by month. *)
Definition monthly_change (rows : list LedgerEntry) : list (Month * Q) :=
  group_sum le_month (fun e => le_debit e - le_credit e)
            (filter (fun e => is_cash_account e = true) rows).

(** [load_snapshot_total_eur]: the first recognizable balance column,
    coerced to numbers, NaN filled with 0, summed. *)
Definition balance_fields : list string :=
  ["balance_eur"; "balance"; "amount"; "currentBalance"; "available"].

Fixpoint field_lookup (k : string) (r : SnapshotRecord) : option (option Q) :=
  match r with
  | [] => None
  | (k', v) :: t => if String.eqb k k' then Some v else field_lookup k t
  end.

Definition has_column (recs : list SnapshotRecord) (c : string) : bool :=
  existsb (fun r => match field_lookup c r with Some _ => true | None => false end)
          recs.

Definition load_snapshot_total_eur (recs : list SnapshotRecord) : Error + Q :=
  match List.find (has_column recs) balance_fields with
  | None => inl (ValueError "Snapshot file does not contain a recognizable balance column.")
  | Some cand =>
      inr (qsum (map (fun r => match field_lookup cand r with
                               | Some (Some v) => v
                               | _ => 0
                               end) recs))
  end.

(** Running sums, as [Series.cumsum()]. *)
Fixpoint cumsum_from (acc : Q) (l : list Q) : list Q :=
  match l with
  | [] => []
  | x :: t => (acc + x) :: cumsum_from (acc + x) t
  end.

Definition cumsum (l : list Q) : list Q := cumsum_from 0 l.

(** [net_change[::-1].cumsum()[::-1]]. *)
Definition rev_cum (l : list Q) : list Q := rev (cumsum (rev l)).

(** [snapshot_total - (rev_cum_change - net_change)], row by row. *)
Definition balances (anchor : Q) (nets : list Q) : list Q :=
  zip_with (fun rc n => anchor - (rc - n)) (rev_cum nets) nets.

(** The reconstructed series before and after [round(2)]. *)
Definition reconstruct (anchor : Q) (mc : list (Month * Q)) : list (Month * Q) :=
  zip (map fst mc) (balances anchor (map snd mc)).

Definition reconstruct_rounded (anchor : Q) (mc : list (Month * Q))
  : list (Month * Q) :=
  map (fun p => (fst p, round2 (snd p))) (reconstruct anchor mc).

(** [build_monthly_from_ledger]: the rows of the written clean CSV
    (columns month, cash_balance_eur), or the exception raised. *)
Definition build_monthly_from_ledger (fs : Files) : Error + list (Month * Q) :=
  match raw_ledger fs with
  | None => inl (FileNotFoundError RAW_LEDGER)
  | Some windows =>
    match raw_snapshot fs with
    | None => inl (FileNotFoundError RAW_SNAPSHOT)
    | Some snap =>
      let rows := flatten windows in
      match rows with
      | [] => inr []
      | _ :: _ =>
        let mc := monthly_change rows in
        match load_snapshot_total_eur snap with
        | inl e => inl e
        | inr snapshot_total =>
          (* [monthly_change["rev_cum_change"].iloc[0]] *)
          match rev_cum (map snd mc) with
          | [] => inl IndexError
          | _ :: _ => inr (reconstruct_rounded snapshot_total mc)
          end
        end
      end
    end
  end.

End Ledger.

(** ** Month-keyed tables and the outer merge ([pd.merge(.., on='month', how='outer')]) *)
Module Frame.

(** A table with a [month] key column and named value columns [cols];
    each row carries its month and its cells by column name. *)
Record Frame := mkFrame {
  cols : list string;
  rows : list (Month * list (string * option Q))
}.

Fixpoint col_lookup {V} (c : string) (a : list (string * V)) : option V :=
  match a with
  | [] => None
  | (c', v) :: t => if String.eqb c c' then Some v else col_lookup c t
  end.

Definition keys (f : Frame) : list Month := map fst (rows f).

Definition rows_at (f : Frame) (k : Month) : list (Month * list (string * option Q)) :=
  filter (fun r => fst r = k) (rows f).

(** The NaN cells pandas puts on the side of a merge that lacks the key. *)
Definition null_row (cs : list string) : list (string * option Q) :=
  map (fun c => (c, None)) cs.

(** Outer merge on [month]: keys are the sorted union; each left row with the
    key is paired with each right row with the key, and a side without the
    key contributes NaN cells. The embedded tables never share a value
    column name, so pandas' [_x]/[_y] suffixes never arise. *)
Definition merge_outer (l r : Frame) : Frame :=
  mkFrame (cols l ++ cols r)
    (flat_map (fun k =>
       match rows_at l k, rows_at r k with
       | [], rs => map (fun y => (k, null_row (cols l) ++ snd y)) rs
       | ls, [] => map (fun x => (k, snd x ++ null_row (cols r))) ls
       | ls, rs => flat_map (fun x => map (fun y => (k, snd x ++ snd y)) rs) ls
       end)
       (group_keys (keys l ++ keys r))).

(** [df = dfs[0]; for df in dfs[1:]: df = pd.merge(df, .., how='outer')]. *)
Definition merge_all (f : Frame) (fs : list Frame) : Frame :=
  fold_left merge_outer fs f.

(** [df[['month', c1, ..]]]: keep the listed columns. *)
Definition select (cs : list string) (f : Frame) : Frame :=
  mkFrame cs (map (fun r => (fst r, map (fun c => (c, default None (col_lookup c (snd r)))) cs))
                  (rows f)).

(** A table with a single value column, e.g. [month, opex]. *)
Definition of_series (c : string) (xs : list (Month * Q)) : Frame :=
  mkFrame [c] (map (fun p => (fst p, [(c, Some (snd p))])) xs).

(** [fillna(0)] on one row. *)
Definition fill_row (a : list (string * option Q)) : list (string * Q) :=
  map (fun p => (fst p, default 0 (snd p))) a.

(** The cells of month [k], or NaN cells when the table has no such row. *)
Definition row_of (f : Frame) (k : Month) : list (string * option Q) :=
  match rows_at f k with
  | r :: _ => snd r
  | [] => null_row (cols f)
  end.

(** The value of column [c] at month [k] ([None]: absent row or NaN). *)
Definition cell (f : Frame) (k : Month) (c : string) : option Q :=
  match col_lookup c (row_of f k) with
  | Some v => v
  | None => None
  end.

(** The MetricTable invariant: at most one row per month, and every row has
    exactly the table's columns. *)
Definition WF (f : Frame) : Prop :=
  NoDup (keys f) /\ forall r, r ∈ rows f -> map fst (snd r) = cols f.

End Frame.

(** ** Final merge of [run_pipeline] *)
Module FinalMerge.
Import Frame.

(** The value columns of the 21 tables, in the order of [dfs]. *)
Definition pipeline_schemas : list (list string) := [
  ["mrr"];                                   (*  1 calculate_mrr *)
  ["expansion_mrr"];                         (*  2 *)
  ["contraction_mrr"];                       (*  3 *)
  ["new_mrr"];                               (*  4 *)
  ["churned_mrr"];                           (*  5 *)
  ["net_new_mrr"];                           (*  6 *)
  ["arr"];                                   (*  7 *)
  ["arpa"];                                  (*  8 *)
  ["customers"];                             (*  9 *)
  ["customer-churn-rate"];                   (* 10 *)
  ["mrr-churn-rate"];                        (* 11 *)
  ["ltv"];                                   (* 12 *)
  ["cac_costs"; "new_customers"; "cac"];     (* 13 *)
  ["cac_ltv_ratio"];                         (* 14 *)
  ["opex"];                                  (* 15 *)
  ["cogs"];                                  (* 16 *)
  ["financial_costs"];                       (* 17 *)
  ["ebitda"];                                (* 18 *)
  ["total_costs"; "net_burn"];               (* 19 *)
  ["burn_rate"];                             (* 20 *)
  ["cash_balance_eur"; "runway"]             (* 21 *)
].

Definition preferred_order : list string := [
  "month"; "mrr"; "expansion_mrr"; "contraction_mrr"; "new_mrr"; "churned_mrr";
  "net_new_mrr"; "arr";
  "arpa";
  "customers"; "customer_churn_rate"; "revenue_churn_rate"; "ltv";
  "cac_costs"; "new_customers"; "cac"; "cac_ltv_ratio";
  "opex"; "cogs"; "financial_costs";
  "ebitda"; "burn_rate"; "net_burn"; "cash_balance_eur"; "runway"].

(** [~df.columns.duplicated()]: keep the first occurrence of each name. *)
Fixpoint keep_first (cs : list string) : list string :=
  match cs with
  | [] => []
  | c :: t => c :: filter (fun d => d <> c) (keep_first t)
  end.

Definition drop_duplicated (f : Frame) : Frame := select (keep_first (cols f)) f.

(** [ordered_columns = [col for col in preferred_order if col in df_final.columns]]. *)
Definition ordered_columns (cs : list string) : list string :=
  filter (fun c => c ∈ "month" :: cs) preferred_order.

(** [sort_values(by='month')] compares rows by their month. *)
Definition month_le (r1 r2 : Month * list (string * Q)) : Prop := (fst r1 <= fst r2)%nat.

#[global] Instance month_le_dec : RelDecision month_le.
Proof. intros r1 r2. unfold month_le. apply _. Defined.

(** The FinalMetricsTable: its column list (starting with [month]) and its
    rows, a month with the cells of the remaining columns. *)
Record FinalTable := mkFinalTable {
  fcols : list string;
  frows : list (Month * list (string * Q))
}.

(** The merge stage of [run_pipeline] on [dfs]: outer merges in order, drop
    duplicated columns, [fillna(0)], sort by month, project on the preferred
    columns. *)
Definition run_pipeline_merge (dfs : list Frame) : FinalTable :=
  match dfs with
  | [] => mkFinalTable ["month"] []
  | df0 :: rest =>
    let merged := drop_duplicated (merge_all df0 rest) in
    let filled := map (fun r => (fst r, fill_row (snd r))) (rows merged) in
    let sorted := merge_sort month_le filled in
    let oc := ordered_columns (cols merged) in
    mkFinalTable oc
      (map (fun r => (fst r, map (fun c => (c, default 0 (col_lookup c (snd r))))
                                 (tail oc)))
           sorted)
  end.

End FinalMerge.

(** ** Tagged cost buckets, CAC and the shared source tables
    ([calculate_opex], [calculate_cogs], [calculate_financial_costs],
    [calculate_cac]) *)
Module Costs.
Import Frame.

(** [str.lower] on one byte; text is taken to be ASCII. *)
Definition lower_ascii (a : ascii) : ascii :=
  let n := nat_of_ascii a in
  if (65 <=? n)%nat && (n <=? 90)%nat then ascii_of_nat (n + 32) else a.

Fixpoint lower (s : string) : string :=
  match s with
  | EmptyString => EmptyString
  | String a t => String (lower_ascii a) (lower t)
  end.

(** [pat] occurs in [s] at some position. *)
Fixpoint contains (pat s : string) : bool :=
  String.prefix pat s ||
  match s with
  | EmptyString => false
  | String _ t => contains pat t
  end.

(** [s.str.contains(pat, case=False, na=False)] for a literal pattern. *)
Definition contains_ci (pat s : string) : bool := contains (lower pat) (lower s).

(** A row of the Holded contacts table; [None] is a null cell. *)
Record Contact := mkContact {
  c_id : string;
  c_tags : option string;
  c_type : option string
}.

(** A row of the Holded purchases table; [p_month] is
    [ensure_month_format(date)]. *)
Record Purchase := mkPurchase {
  p_contact : string;
  p_status : Z;
  p_total_eur : option Q;
  p_month : Month
}.

(** The source tables shared by the calculators of one run: [run_pipeline]
    passes the same [df_contacts] and [df_purchases] objects to each of them. *)
Record Store := mkStore {
  contacts : list Contact;
  purchases : list Purchase
}.

(** [df_contacts['tags'] = df_contacts['tags'].fillna('').astype(str)] and the
    same for ['type']: an assignment into the caller's DataFrame. *)
Definition clean_contact (c : Contact) : Contact :=
  mkContact (c_id c) (Some (default "" (c_tags c))) (Some (default "" (c_type c))).

(** [df_contacts[tags.str.contains(tag, case=False, na=False) &
    (type.str.lower() == 'supplier')]['id']]. *)
Definition tagged_ids (tag : string) (cs : list Contact) : list string :=
  map c_id (filter (fun c => (contains_ci tag (default "" (c_tags c)) &&
                              String.eqb (lower (default "" (c_type c))) "supplier") = true) cs).

(** [contact.isin(ids) & (status == 1)]. *)
Definition is_tagged_purchase (ids : list string) (p : Purchase) : bool :=
  bool_decide (p_contact p ∈ ids) && Z.eqb (p_status p) 1.

(** The common body of the four tagged-cost calculators: the updated store
    (the contacts written back) and the monthly sums of [total_eur]
    (NaN amounts are skipped by [sum]). *)
Definition tagged_cost (tag : string) (st : Store) : Store * list (Month * Q) :=
  let cs := map clean_contact (contacts st) in
  let st' := mkStore cs (purchases st) in
  let ids := tagged_ids tag cs in
  let sel := filter (fun p => is_tagged_purchase ids p = true) (purchases st) in
  (st', match sel with
        | [] => []
        | _ => group_sum p_month (fun p => default 0 (p_total_eur p)) sel
        end).

Definition calculate_opex (st : Store) : Store * list (Month * Q) := tagged_cost "opex" st.
Definition calculate_cogs (st : Store) : Store * list (Month * Q) := tagged_cost "cogs" st.
Definition calculate_financial_costs (st : Store) : Store * list (Month * Q) :=
  tagged_cost "costes financieros" st.

(** A row of the ChartMogul customers table; [customer_since] is
    [ensure_month_format(customer-since)] on a non-null date. *)
Record Customer := mkCustomer {
  uuid : option string;
  customer_since : option Month
}.

(** [df[df['customer-since'].notna()]] with its ['month'] column: the
    (month, uuid) pairs. *)
Definition dated_customers (cus : list Customer) : list (Month * option string) :=
  omap (fun cu => match customer_since cu with
                  | Some m => Some (m, uuid cu)
                  | None => None
                  end) cus.

(** [.groupby('month')['uuid'].nunique()]: [nunique] counts the distinct
    non-null values. *)
Definition new_customers (cus : list Customer) : list (Month * Q) :=
  let rs := dated_customers cus in
  map (fun m => (m, inject_Z (Z.of_nat
                   (length (remove_dups (omap snd (filter (fun r => fst r = m) rs)))))))
      (group_keys (map fst rs)).

Record CacRow := mkCacRow {
  cac_costs : Q;
  new_customers_count : Q;
  cac : Q
}.

(** [calculate_cac]: outer merge of the new-customer counts with the CAC
    spend, [fillna(0)], then the guarded division. *)
Definition calculate_cac (st : Store) (cus : list Customer)
  : Store * list (Month * CacRow) :=
  let (st', costs) := tagged_cost "cac" st in
  let m := merge_outer (of_series "new_customers" (new_customers cus))
                       (of_series "cac_costs" costs) in
  (st', map (fun r =>
           let a := fill_row (snd r) in
           let n := default 0 (col_lookup "new_customers" a) in
           let c := default 0 (col_lookup "cac_costs" a) in
           (fst r, mkCacRow c n (if Qlt_le_dec 0 n then c / n else 0)))
         (rows m)).

End Costs.

(** ** EBITDA and burn rate ([calculate_ebitda], [calculate_burn_rate]) *)
Module Ebitda.
Import Frame.

(** Outer merges of the five tables (of the CAC table only [cac_costs]),
    [fillna(0)], then the formula on each row. *)
Definition calculate_ebitda (df_mrr df_opex df_cogs df_fin df_cac : Frame)
  : list (Month * Q) :=
  let df := merge_all df_mrr [df_opex; df_cogs; df_fin; select ["cac_costs"] df_cac] in
  map (fun r =>
         let a := fill_row (snd r) in
         let v c := default 0 (col_lookup c a) in
         (fst r, v "mrr" - (v "opex" + v "cogs" + v "financial_costs" + v "cac_costs")))
      (rows df).

Definition calculate_burn_rate (df_ebitda : list (Month * Q)) : list (Month * Q) :=
  map (fun p => (fst p, Qabs (snd p))) df_ebitda.

End Ebitda.

(** ** Runway ([calculate_runway]) *)
Module Runway.
Import Frame.

(** The second argument: a number, or a table of monthly cash balances
    (its month and balance columns already resolved; [None] is NaN). *)
Inductive CashSource :=
| ConstCash (c : Q)
| CashFrame (cash : list (Month * option Q)).

(** [round(cash / burn, 2) if burn != 0 else None]. A NaN burn (a month only
    in the cash table) passes the test and gives NaN: [None] as well. *)
Definition runway_cell (cash : Q) (burn : option Q) : option Q :=
  match burn with
  | Some b => if Qeq_bool b 0 then None else Some (round2 (cash / b))
  | None => None
  end.

(** [groupby('month').last()]: the last non-null value of each month. *)
Definition last_valid (xs : list (option Q)) : option Q :=
  fold_left (fun acc x => match x with Some v => Some v | None => acc end) xs None.

Definition group_last (cash : list (Month * option Q)) : Frame :=
  mkFrame ["cash_balance_eur"]
    (map (fun k => (k, [("cash_balance_eur",
                          last_valid (map snd (filter (fun r => fst r = k) cash)))]))
         (group_keys (map fst cash))).

(** Rows [(month, cash_balance_eur, runway)]. The burn column goes through
    [to_numeric(.., errors='coerce').fillna(0.0)] first. *)
Definition calculate_runway (df_burn_rate : list (Month * option Q)) (src : CashSource)
  : list (Month * Q * option Q) :=
  let df := map (fun p => (fst p, default 0 (snd p))) df_burn_rate in
  match src with
  | ConstCash c => map (fun p => (fst p, c, runway_cell c (Some (snd p)))) df
  | CashFrame cash =>
    let m := merge_outer (of_series "burn_rate" df) (group_last cash) in
    map (fun r =>
           let b := match col_lookup "burn_rate" (snd r) with Some v => v | None => None end in
           let cv := default 0 (match col_lookup "cash_balance_eur" (snd r) with
                                | Some v => v | None => None end) in
           (fst r, cv, runway_cell cv b))
        (rows m)
  end.

End Runway.

(** ** MRR movement aggregators ([calculate_new_mrr], [calculate_churned_mrr],
    [calculate_contraction_mrr]) *)
Module Mrr.

(** A row of the ChartMogul MRR components table; [mc_month] is
    [ensure_month_format(date)]. *)
Record MrrComponent := mkMrrComponent {
  mc_month : Month;
  mrr_new_business : option Q;
  mrr_churn : option Q;
  mrr_contraction : option Q
}.

Definition calculate_new_mrr (rs : list MrrComponent) : list (Month * Q) :=
  group_sum mc_month (fun r => default 0 (mrr_new_business r)) rs.

(** [df['churned_mrr'] = df['churned_mrr'].abs()], then the monthly sum. *)
Definition calculate_churned_mrr (rs : list MrrComponent) : list (Month * Q) :=
  group_sum mc_month (fun r => default 0 (option_map Qabs (mrr_churn r))) rs.

Definition calculate_contraction_mrr (rs : list MrrComponent) : list (Month * Q) :=
  group_sum mc_month (fun r => default 0 (option_map Qabs (mrr_contraction r))) rs.

End Mrr.

(** ** Column checks ([validate_columns]) *)
Module Checks.
Import Ledger.

(** Python's [str] of a list of strings: ['a', 'b']. *)
Fixpoint py_list_items (l : list string) : string :=
  match l with
  | [] => ""
  | [c] => "'" ++ c ++ "'"
  | c :: t => "'" ++ c ++ "', " ++ py_list_items t
  end.

Definition py_list_repr (l : list string) : string := "[" ++ py_list_items l ++ "]".

(** [missing = [col for col in required if col not in df.columns]];
    [raise ValueError(f"{df_name} is missing columns: {missing}")]. *)
Definition validate_columns (df_columns required : list string) (df_name : string)
  : Error + unit :=
  let missing := filter (fun col => col ∉ df_columns) required in
  match missing with
  | [] => inr tt
  | _ :: _ => inl (ValueError (df_name ++ " is missing columns: " ++ py_list_repr missing))
  end.

End Checks.

(** ** Columns taken over from the ChartMogul metrics table ([calculate_arpa],
    [calculate_customers], [calculate_customer_churn_rate],
    [calculate_revenue_churn_rate], [calculate_ltv]) *)
Module CmMetrics.
Import Ledger Frame Checks.

(** The ChartMogul metrics table: its column names, and its rows, each with
    its [month] ([ensure_month_format(month_start)]) and its cells. *)
Record CmTable := mkCmTable {
  cm_columns : list string;
  cm_rows : list (Month * list (string * option Q))
}.

(** The common body: check the columns, copy, add [month], keep
    [[month, col]]. *)
Definition extract_metric (col : string) (df : CmTable) : Error + Frame :=
  match validate_columns (cm_columns df) ["month_start"; col] "ChartMogul Metrics" with
  | inl e => inl e
  | inr _ =>
    inr (mkFrame [col]
           (map (fun r => (fst r, [(col, match col_lookup col (snd r) with
                                         | Some v => v
                                         | None => None
                                         end)]))
                (cm_rows df)))
  end.

Definition calculate_arpa (df : CmTable) : Error + Frame := extract_metric "arpa" df.
Definition calculate_customers (df : CmTable) : Error + Frame := extract_metric "customers" df.
Definition calculate_customer_churn_rate (df : CmTable) : Error + Frame :=
  extract_metric "customer-churn-rate" df.
Definition calculate_revenue_churn_rate (df : CmTable) : Error + Frame :=
  extract_metric "mrr-churn-rate" df.
Definition calculate_ltv (df : CmTable) : Error + Frame := extract_metric "ltv" df.

End CmMetrics.

(** ** The other aggregators of the MRR components table ([calculate_mrr],
    [calculate_expansion_mrr], [calculate_net_new_mrr], [calculate_arr]) *)
Module MrrTable.
Import Mrr.

(** A row of the ChartMogul MRR components table with all the columns the
    calculators read; [r_month] is [ensure_month_format(date)]. *)
Record McRow := mkMcRow {
  r_month : Month;
  r_mrr : option Q;
  r_new_business : option Q;
  r_expansion : option Q;
  r_contraction : option Q;
  r_churn : option Q
}.

(** The columns read by [calculate_new_mrr], [calculate_churned_mrr] and
    [calculate_contraction_mrr]. *)
Definition to_component (r : McRow) : MrrComponent :=
  mkMrrComponent (r_month r) (r_new_business r) (r_churn r) (r_contraction r).

Definition calculate_mrr (rs : list McRow) : list (Month * Q) :=
  group_sum r_month (fun r => default 0 (r_mrr r)) rs.

(** [df['expansion_mrr'] = df['expansion_mrr'].abs()], then the monthly sum. *)
Definition calculate_expansion_mrr (rs : list McRow) : list (Month * Q) :=
  group_sum r_month (fun r => default 0 (option_map Qabs (r_expansion r))) rs.

(** Churn and contraction made absolute, the four columns summed per month,
    then [new + expansion - contraction - churned]. *)
Definition calculate_net_new_mrr (rs : list McRow) : list (Month * Q) :=
  let s (f : McRow -> Q) (m : Month) := qsum (map f (filter (fun r => r_month r = m) rs)) in
  map (fun m => (m, s (fun r => default 0 (r_new_business r)) m
                    + s (fun r => default 0 (r_expansion r)) m
                    - s (fun r => default 0 (option_map Qabs (r_contraction r))) m
                    - s (fun r => default 0 (option_map Qabs (r_churn r))) m))
      (group_keys (map r_month rs)).

(** [monthly_mrr = groupby('month')['mrr'].sum()]; [arr = mrr * 12]. *)
Definition calculate_arr (rs : list McRow) : list (Month * Q) :=
  map (fun p => (fst p, snd p * 12)) (group_sum r_month (fun r => default 0 (r_mrr r)) rs).

End MrrTable.

(** ** Net burn ([calculate_net_burn]) *)
Module NetBurn.
Import Frame Costs MrrTable.

(** Rows [(month, total_costs, net_burn)]: confirmed purchases summed by
    month, MRR summed by month, outer merge, the two columns zero-filled. *)
Definition calculate_net_burn (ps : list Purchase) (rs : list McRow)
  : list (Month * Q * Q) :=
  let df_confirmed := filter (fun p => p_status p = 1%Z) ps in
  let df_costs := group_sum p_month (fun p => default 0 (p_total_eur p)) df_confirmed in
  let df_revenue := group_sum r_month (fun r => default 0 (r_mrr r)) rs in
  let df_merged := merge_outer (of_series "total_costs" df_costs) (of_series "mrr" df_revenue) in
  map (fun r =>
         let a := fill_row (snd r) in
         let tc := default 0 (col_lookup "total_costs" a) in
         let mrr := default 0 (col_lookup "mrr" a) in
         (fst r, tc, tc - mrr))
      (rows df_merged).

End NetBurn.

(** ** CAC:LTV ratio ([calculate_cac_ltv_ratio]) *)
Module CacLtv.
Import Frame Costs.

(** The table [calculate_cac] returns: [month, cac_costs, new_customers, cac]. *)
Definition cac_table (xs : list (Month * CacRow)) : Frame :=
  mkFrame ["cac_costs"; "new_customers"; "cac"]
    (map (fun p => (fst p, [("cac_costs", Some (cac_costs (snd p)));
                            ("new_customers", Some (new_customers_count (snd p)));
                            ("cac", Some (cac (snd p)))])) xs).

(** Outer merge of [df_ltv[['month','ltv']]] and [df_cac[['month','cac']]],
    [fillna(0)], then [ltv / cac if cac > 0 else 0]. *)
Definition calculate_cac_ltv_ratio (df_ltv df_cac : Frame) : list (Month * Q) :=
  let df := merge_outer (select ["ltv"] df_ltv) (select ["cac"] df_cac) in
  map (fun r =>
         let a := fill_row (snd r) in
         let l := default 0 (col_lookup "ltv" a) in
         let c := default 0 (col_lookup "cac" a) in
         (fst r, if Qlt_le_dec 0 c then l / c else 0))
      (rows df).

End CacLtv.

(** ** The calculators of [run_pipeline] on the shared source tables *)
Module Pipeline.
Import Costs.

(** Steps 13, 15, 16 and 17 of [run_pipeline]: each calculator receives the
    contacts table as the previous one left it. *)
Definition run_cost_calculators (st : Store) (cus : list Customer)
  : Store * (list (Month * CacRow) * list (Month * Q) * list (Month * Q) * list (Month * Q)) :=
  let (st1, df_cac) := calculate_cac st cus in
  let (st2, df_opex) := calculate_opex st1 in
  let (st3, df_cogs) := calculate_cogs st2 in
  let (st4, df_fin) := calculate_financial_costs st3 in
  (st4, (df_cac, df_opex, df_cogs, df_fin)).

End Pipeline.

(* ================================================================== *)
(** * Proofs *)

(** ** Rounding to two decimals *)

Lemma round2_error (x : Q) : Qabs (round2 x - x) <= 1 # 200.
Proof.
  unfold round2.
  set (y := x * 100).
  pose proof (Qfloor_le y) as Hle. pose proof (Qlt_floor y) as Hlt.
  set (f := Qfloor y) in *.
  rewrite inject_Z_plus in Hlt. simpl in Hlt.
  assert (Hr : forall r : Z, Qabs (inject_Z r - y) <= 1 # 2 ->
                 Qabs (inject_Z r / 100 - x) <= 1 # 200).
  { intros r Hr. apply Qabs_Qle_condition in Hr. apply Qabs_Qle_condition.
    unfold y in Hr. destruct Hr as [H1 H2].
    assert (E : (inject_Z r / 100 - x) * 100 == inject_Z r - x * 100) by field.
    split; apply (Qmult_le_r _ _ 100); try reflexivity; rewrite E; lra. }
  apply Hr. apply Qabs_Qle_condition.
  change (inject_Z 1) with 1 in Hlt. clearbody f y.
  destruct (Qle_bool (1 # 2) (y - inject_Z f)) eqn:E1; simpl.
  - apply Qle_bool_iff in E1.
    destruct (Qle_bool (y - inject_Z f) (1 # 2)) eqn:E2; simpl.
    + apply Qle_bool_iff in E2.
      destruct (Z.even f); rewrite ?inject_Z_plus; change (inject_Z 1) with 1; split; lra.
    + assert (~ (y - inject_Z f <= 1 # 2)) as E2'.
      { intro H. apply Qle_bool_iff in H. congruence. }
      apply Qnot_le_lt in E2'. rewrite inject_Z_plus. change (inject_Z 1) with 1. split; lra.
  - assert (~ (1 # 2 <= y - inject_Z f)) as E1'.
    { intro H. apply Qle_bool_iff in H. congruence. }
    apply Qnot_le_lt in E1'. split; lra.
Qed.

(** ** Grouping *)

Lemma elem_of_map_iff {A B} (f : A -> B) (l : list A) (y : B) :
  y ∈ map f l <-> exists x, y = f x /\ x ∈ l.
Proof.
  rewrite list_elem_of_In, in_map_iff.
  split; intros (x & ? & ?); exists x; rewrite ?list_elem_of_In in *; auto.
Qed.

Lemma group_keys_elem (ks : list Month) (m : Month) :
  m ∈ group_keys ks <-> m ∈ ks.
Proof.
  unfold group_keys. rewrite (merge_sort_Permutation le).
  apply elem_of_remove_dups.
Qed.

Lemma group_keys_NoDup (ks : list Month) : NoDup (group_keys ks).
Proof.
  unfold group_keys. rewrite (merge_sort_Permutation le).
  apply NoDup_remove_dups.
Qed.

Lemma group_keys_sorted (ks : list Month) : StronglySorted le (group_keys ks).
Proof.
  unfold group_keys. apply StronglySorted_merge_sort; [intros ???; lia|].
  intros x y. lia.
Qed.

Lemma group_sum_keys {A} (key : A -> Month) (val : A -> Q) (xs : list A) :
  map fst (group_sum key val xs) = group_keys (map key xs).
Proof. unfold group_sum. rewrite map_map. simpl. apply map_id. Qed.

Lemma group_sum_elem {A} (key : A -> Month) (val : A -> Q) (xs : list A) m v :
  (m, v) ∈ group_sum key val xs ->
  v = qsum (map val (filter (fun x => key x = m) xs)).
Proof.
  unfold group_sum. rewrite elem_of_map_iff. intros (m' & Heq & _).
  injection Heq as -> ->. reflexivity.
Qed.

(** The grouped keys are exactly the keys of the rows, once each, ascending. *)
Lemma group_sum_keys_spec {A} (key : A -> Month) (val : A -> Q) (xs : list A) :
  NoDup (map fst (group_sum key val xs)) /\
  StronglySorted le (map fst (group_sum key val xs)) /\
  (forall m, m ∈ map fst (group_sum key val xs) <-> exists x, x ∈ xs /\ key x = m).
Proof.
  rewrite group_sum_keys. split; [apply group_keys_NoDup|].
  split; [apply group_keys_sorted|].
  intros m. rewrite group_keys_elem, elem_of_map_iff.
  split; intros (x & ? & ?); exists x; auto.
Qed.

Lemma qsum_app (l1 l2 : list Q) : qsum (l1 ++ l2) == qsum l1 + qsum l2.
Proof. induction l1 as [|x l1 IH]; simpl; [ring|]. rewrite IH. ring. Qed.

Lemma fold_left_Qplus (l : list Q) (acc : Q) :
  fold_left Qplus l acc == acc + qsum l.
Proof.
  revert acc. induction l as [|x l IH]; intros acc; simpl; [ring|].
  rewrite IH. ring.
Qed.

Lemma qsum_rev (l : list Q) : qsum (rev l) == qsum l.
Proof.
  induction l as [|x l IH]; simpl; [reflexivity|].
  rewrite qsum_app, IH. simpl. ring.
Qed.

(** ** Outer merge *)
Module FrameProofs.
Import Frame.

Lemma filter_fst_nil {V} (l : list (Month * V)) (k : Month) :
  k ∉ map fst l -> filter (fun r => fst r = k) l = [].
Proof.
  induction l as [|[k' a] l IH]; intros Hk; [reflexivity|].
  simpl in Hk. apply not_elem_of_cons in Hk as [Hne Hk].
  rewrite filter_cons. simpl. destruct (decide (k' = k)); [congruence|].
  apply IH, Hk.
Qed.

Lemma filter_fst_nil_inv {V} (l : list (Month * V)) (k : Month) :
  filter (fun r => fst r = k) l = [] -> k ∉ map fst l.
Proof.
  intros H Hk. apply elem_of_map_iff in Hk as ([k' a] & Hk & Hin). simpl in Hk.
  subst k'. apply (filter_nil_not_elem_of _ _ (k, a) H); [reflexivity|exact Hin].
Qed.

Lemma filter_fst_NoDup {V} (l : list (Month * V)) (k : Month) :
  NoDup (map fst l) ->
  filter (fun r => fst r = k) l = [] \/
  exists a, filter (fun r => fst r = k) l = [(k, a)] /\ (k, a) ∈ l.
Proof.
  induction l as [|[k' a] l IH]; intros Hnd; [left; reflexivity|].
  simpl in Hnd. apply NoDup_cons in Hnd as [Hk' Hnd].
  rewrite filter_cons. simpl. destruct (decide (k' = k)) as [->|Hne].
  - right. exists a. rewrite filter_fst_nil by exact Hk'.
    split; [reflexivity|]. apply elem_of_cons. left. reflexivity.
  - destruct (IH Hnd) as [H|(a' & H & Hin)]; [left; exact H|].
    right. exists a'. split; [exact H|]. apply elem_of_cons. right. exact Hin.
Qed.

Lemma filter_fst_elem {V} (l : list (Month * V)) (k : Month) (a : V) :
  NoDup (map fst l) -> (k, a) ∈ l -> filter (fun r => fst r = k) l = [(k, a)].
Proof.
  intros Hnd Hin. destruct (filter_fst_NoDup l k Hnd) as [H|(a' & H & Hin')].
  - exfalso. apply (filter_fst_nil_inv l k H).
    apply elem_of_map_iff. exists (k, a). split; [reflexivity|exact Hin].
  - rewrite H. do 2 f_equal.
    induction l as [|[k0 a0] l IH]; [inversion Hin|].
    simpl in Hnd. apply NoDup_cons in Hnd as [Hk0 Hnd].
    apply elem_of_cons in Hin, Hin'.
    destruct Hin as [Hin|Hin], Hin' as [Hin'|Hin'].
    + congruence.
    + injection Hin as <- <-. exfalso. apply Hk0.
      apply elem_of_map_iff. exists (k, a'). auto.
    + injection Hin' as <- <-. exfalso. apply Hk0.
      apply elem_of_map_iff. exists (k, a). auto.
    + rewrite filter_cons in H. simpl in H.
      destruct (decide (k0 = k)) as [->|]; [|exact (IH Hnd Hin H Hin')].
      exfalso. apply Hk0. apply elem_of_map_iff. exists (k, a). auto.
Qed.

Lemma filter_fst_map_keys {V} (g : Month -> V) (ks : list Month) (k : Month) :
  NoDup ks ->
  filter (fun r => fst r = k) (map (fun k' => (k', g k')) ks) =
  if decide (k ∈ ks) then [(k, g k)] else [].
Proof.
  intros Hnd. destruct (decide (k ∈ ks)) as [Hin|Hnin].
  - apply filter_fst_elem.
    + rewrite map_map. simpl. rewrite map_id. exact Hnd.
    + apply elem_of_map_iff. exists k. auto.
  - apply filter_fst_nil. rewrite map_map. simpl. rewrite map_id. exact Hnin.
Qed.

Lemma rows_at_cases (f : Frame) (k : Month) :
  NoDup (keys f) ->
  (rows_at f k = [] /\ k ∉ keys f) \/
  (exists a, rows_at f k = [(k, a)] /\ (k, a) ∈ rows f).
Proof.
  intros Hnd. unfold rows_at.
  destruct (filter_fst_NoDup (rows f) k Hnd) as [H|H]; [left|right; exact H].
  split; [exact H|]. apply filter_fst_nil_inv, H.
Qed.

(** With at most one row per month on each side, the merge has one row per
    month of the union: the left cells followed by the right cells. *)
Lemma merge_rows (l r : Frame) :
  NoDup (keys l) -> NoDup (keys r) ->
  rows (merge_outer l r) =
  map (fun k => (k, row_of l k ++ row_of r k)) (group_keys (keys l ++ keys r)).
Proof.
  intros Hl Hr. unfold merge_outer. simpl.
  assert (Hks : forall k, k ∈ group_keys (keys l ++ keys r) -> k ∈ keys l ++ keys r)
    by (intros k; apply group_keys_elem).
  revert Hks. generalize (group_keys (keys l ++ keys r)) as ks.
  induction ks as [|k ks IH]; intros Hks; [reflexivity|].
  simpl. rewrite IH by (intros k' Hk'; apply Hks; apply elem_of_cons; auto).
  assert (Hk : k ∈ keys l ++ keys r) by (apply Hks; apply elem_of_cons; auto).
  unfold row_of.
  destruct (rows_at_cases l k Hl) as [[El Nl]|(a & El & _)];
  destruct (rows_at_cases r k Hr) as [[Er Nr]|(b & Er & _)];
  rewrite El, Er; simpl; try reflexivity.
  exfalso. apply elem_of_app in Hk as [Hk|Hk]; auto.
Qed.

Lemma keys_merge (l r : Frame) :
  NoDup (keys l) -> NoDup (keys r) ->
  keys (merge_outer l r) = group_keys (keys l ++ keys r).
Proof.
  intros Hl Hr. unfold keys at 1. rewrite merge_rows by assumption.
  rewrite map_map. simpl. apply map_id.
Qed.

Lemma null_row_dom (cs : list string) : map fst (null_row cs) = cs.
Proof. unfold null_row. rewrite map_map. simpl. apply map_id. Qed.

Lemma row_of_dom (f : Frame) (k : Month) :
  WF f -> map fst (row_of f k) = cols f.
Proof.
  intros [Hnd Hdom]. unfold row_of.
  destruct (rows_at_cases f k Hnd) as [[E _]|(a & E & Hin)]; rewrite E.
  - apply null_row_dom.
  - apply (Hdom (k, a) Hin).
Qed.

Lemma row_of_merge (l r : Frame) (k : Month) :
  NoDup (keys l) -> NoDup (keys r) ->
  row_of (merge_outer l r) k = row_of l k ++ row_of r k.
Proof.
  intros Hl Hr. unfold row_of at 1, rows_at at 1. rewrite merge_rows by assumption.
  rewrite (filter_fst_map_keys (fun k => row_of l k ++ row_of r k))
    by apply group_keys_NoDup.
  destruct (decide (k ∈ group_keys (keys l ++ keys r))) as [_|Hn]; [reflexivity|].
  rewrite group_keys_elem, elem_of_app in Hn. simpl.
  unfold null_row. rewrite map_app. unfold row_of.
  destruct (rows_at_cases l k Hl) as [[El _]|(a & _ & Hin)];
    [|exfalso; apply Hn; left; apply elem_of_map_iff; exists (k, a); auto].
  destruct (rows_at_cases r k Hr) as [[Er _]|(b & _ & Hin)];
    [|exfalso; apply Hn; right; apply elem_of_map_iff; exists (k, b); auto].
  rewrite El, Er. reflexivity.
Qed.

Lemma WF_merge (l r : Frame) : WF l -> WF r -> WF (merge_outer l r).
Proof.
  intros Hl Hr. pose proof Hl as [Hln _]. pose proof Hr as [Hrn _]. split.
  - rewrite keys_merge by assumption. apply group_keys_NoDup.
  - intros x Hx. rewrite merge_rows in Hx by assumption.
    apply elem_of_map_iff in Hx as (k & -> & _). simpl.
    rewrite map_app, !row_of_dom by assumption. reflexivity.
Qed.

Lemma keys_merge_elem (l r : Frame) (k : Month) :
  NoDup (keys l) -> NoDup (keys r) ->
  k ∈ keys (merge_outer l r) <-> k ∈ keys l \/ k ∈ keys r.
Proof.
  intros Hl Hr. rewrite keys_merge, group_keys_elem, elem_of_app by assumption.
  reflexivity.
Qed.

(** The fold over the declared sequence of tables. *)
Lemma merge_all_spec (f : Frame) (fs : list Frame) :
  WF f -> Forall WF fs ->
  WF (merge_all f fs) /\
  cols (merge_all f fs) = cols f ++ concat (map cols fs) /\
  (forall k, row_of (merge_all f fs) k =
             row_of f k ++ concat (map (fun t => row_of t k) fs)) /\
  (forall k, k ∈ keys (merge_all f fs) <->
             k ∈ keys f \/ exists t, t ∈ fs /\ k ∈ keys t).
Proof.
  unfold merge_all. revert f.
  induction fs as [|g fs IH]; intros f Hf Hfs.
  - simpl. split; [exact Hf|]. split; [rewrite app_nil_r; reflexivity|].
    split; [intros k; rewrite app_nil_r; reflexivity|].
    intros k. split; [intros H; left; exact H|].
    intros [H|(t & Ht & _)]; [exact H|inversion Ht].
  - apply Forall_cons in Hfs as [Hg Hfs]. simpl.
    pose proof (WF_merge f g Hf Hg) as Hm.
    destruct (IH (merge_outer f g) Hm Hfs) as (HW & Hc & Hr & Hk).
    pose proof Hf as [Hfn _]. pose proof Hg as [Hgn _].
    split; [exact HW|]. split; [|split].
    + rewrite Hc. simpl. rewrite app_assoc. reflexivity.
    + intros k. rewrite Hr, row_of_merge by assumption. rewrite app_assoc.
      reflexivity.
    + intros k. rewrite Hk, keys_merge_elem by assumption. split.
      * intros [[H|H]|(t & Ht & H)]; [left; exact H| |].
        -- right. exists g. split; [apply elem_of_cons; left|]; auto.
        -- right. exists t. split; [apply elem_of_cons; right|]; auto.
      * intros [H|(t & Ht & H)]; [left; left; exact H|].
        apply elem_of_cons in Ht as [->|Ht]; [left; right; exact H|].
        right. exists t. auto.
Qed.

Lemma col_lookup_app {V} (c : string) (a b : list (string * V)) :
  col_lookup c (a ++ b) =
  match col_lookup c a with Some v => Some v | None => col_lookup c b end.
Proof.
  induction a as [|[c' v] a IH]; [reflexivity|]. simpl.
  destruct (String.eqb c c'); [reflexivity|exact IH].
Qed.

Lemma col_lookup_None {V} (c : string) (a : list (string * V)) :
  col_lookup c a = None <-> c ∉ map fst a.
Proof.
  induction a as [|[c' v] a IH]; simpl.
  - split; [intros _; apply not_elem_of_nil|reflexivity].
  - rewrite not_elem_of_cons. destruct (String.eqb_spec c c') as [->|Hne].
    + split; [discriminate|]. intros [H _]. congruence.
    + rewrite IH. split; [intros H; split; assumption|intros [_ H]; exact H].
Qed.

Lemma col_lookup_map {V} (c : string) (g : string -> V) (cs : list string) :
  col_lookup c (map (fun c' => (c', g c')) cs) =
  if decide (c ∈ cs) then Some (g c) else None.
Proof.
  induction cs as [|c' cs IH]; simpl.
  - destruct (decide (c ∈ [])) as [H|]; [inversion H|reflexivity].
  - destruct (String.eqb_spec c c') as [->|Hne].
    + destruct (decide (c' ∈ c' :: cs)) as [|H]; [reflexivity|].
      exfalso. apply H. apply elem_of_cons. auto.
    + rewrite IH. destruct (decide (c ∈ cs)), (decide (c ∈ c' :: cs)) as [H|H];
        try reflexivity.
      * exfalso. apply H. apply elem_of_cons. auto.
      * apply elem_of_cons in H as [H|H]; congruence.
Qed.

(** In a sequence of tables with pairwise distinct columns, the merged
    cells of column [c] are those of the one table that has [c]. *)
Lemma col_lookup_owner (ts : list Frame) (t : Frame) (k : Month) (c : string) :
  Forall WF ts -> NoDup (concat (map cols ts)) -> t ∈ ts -> c ∈ cols t ->
  col_lookup c (concat (map (fun t' => row_of t' k) ts)) = col_lookup c (row_of t k).
Proof.
  induction ts as [|t0 ts IH]; intros HW Hnd Ht Hc; [inversion Ht|].
  apply Forall_cons in HW as [HW0 HW]. simpl in *.
  apply NoDup_app in Hnd as (_ & Hdis & Hnd).
  rewrite col_lookup_app.
  apply elem_of_cons in Ht as [<-|Ht].
  - destruct (col_lookup c (row_of t k)) eqn:E; [reflexivity|].
    apply col_lookup_None in E. rewrite row_of_dom in E by exact HW0. contradiction.
  - assert (Hn : c ∉ cols t0).
    { intros H0. apply (Hdis c H0). apply list_elem_of_In, in_concat.
      exists (cols t). split; [apply in_map; apply list_elem_of_In; exact Ht|].
      apply list_elem_of_In. exact Hc. }
    rewrite <- (row_of_dom t0 k HW0) in Hn. apply col_lookup_None in Hn.
    rewrite Hn. apply IH; assumption.
Qed.

Lemma cell_merge_all (f : Frame) (fs : list Frame) (t : Frame) (k : Month) (c : string) :
  WF f -> Forall WF fs -> NoDup (concat (map cols (f :: fs))) ->
  t ∈ f :: fs -> c ∈ cols t ->
  cell (merge_all f fs) k c = cell t k c.
Proof.
  intros Hf Hfs Hnd Ht Hc.
  destruct (merge_all_spec f fs Hf Hfs) as (_ & _ & Hrow & _).
  unfold cell. rewrite Hrow.
  change (row_of f k ++ concat (map (fun t' => row_of t' k) fs))
    with (concat (map (fun t' => row_of t' k) (f :: fs))).
  rewrite (col_lookup_owner (f :: fs) t k c); try assumption; [reflexivity|].
  apply Forall_cons; auto.
Qed.

End FrameProofs.

(** ** Cash reconstruction *)
Module CashProofs.
Import Ledger.

Lemma cumsum_from_app (acc : Q) (l1 l2 : list Q) :
  cumsum_from acc (l1 ++ l2) =
  cumsum_from acc l1 ++ cumsum_from (fold_left Qplus l1 acc) l2.
Proof.
  revert acc. induction l1 as [|x l1 IH]; intros acc; simpl; [reflexivity|].
  rewrite IH. reflexivity.
Qed.

(** Peeling the first month off the reverse cumulative sum. *)
Lemma rev_cum_cons (x : Q) (l : list Q) :
  rev_cum (x :: l) = (fold_left Qplus (rev l) 0 + x) :: rev_cum l.
Proof.
  unfold rev_cum, cumsum. simpl.
  rewrite cumsum_from_app, rev_app_distr. reflexivity.
Qed.

Lemma balances_cons (anchor x : Q) (l : list Q) :
  balances anchor (x :: l) =
  (anchor - ((fold_left Qplus (rev l) 0 + x) - x)) :: balances anchor l.
Proof. unfold balances. rewrite rev_cum_cons. reflexivity. Qed.

Lemma length_balances (anchor : Q) (nets : list Q) :
  length (balances anchor nets) = length nets.
Proof.
  induction nets as [|x l IH]; [reflexivity|].
  rewrite balances_cons. simpl. rewrite IH. reflexivity.
Qed.

(** balance[i] = anchor - sum(net_change[i+1..last]). *)
Lemma balances_lookup (anchor : Q) (nets : list Q) (i : nat) (b : Q) :
  balances anchor nets !! i = Some b -> b == anchor - qsum (drop (S i) nets).
Proof.
  revert i b. induction nets as [|x l IH]; intros i b Hb; [discriminate|].
  rewrite balances_cons in Hb. destruct i as [|i]; simpl in Hb.
  - injection Hb as <-. simpl.
    rewrite drop_0. pose proof (fold_left_Qplus (rev l) 0) as H1.
    rewrite qsum_rev in H1. lra.
  - apply IH in Hb. exact Hb.
Qed.

Lemma balances_diff (anchor : Q) (nets : list Q) (i : nat) (b0 b1 n : Q) :
  balances anchor nets !! i = Some b0 ->
  balances anchor nets !! S i = Some b1 ->
  nets !! S i = Some n ->
  b1 - b0 == n.
Proof.
  intros H0 H1 Hn.
  apply balances_lookup in H0. apply balances_lookup in H1.
  rewrite (drop_S nets n (S i) Hn) in H0. simpl in H0. lra.
Qed.

Lemma lookup_map {A B} (f : A -> B) (l : list A) (i : nat) :
  map f l !! i = f <$> l !! i.
Proof. revert i. induction l as [|x l IH]; intros [|i]; simpl; auto. Qed.

Lemma reconstruct_lookup (anchor : Q) (mc : list (Month * Q)) (i : nat) m b :
  reconstruct anchor mc !! i = Some (m, b) ->
  fst <$> mc !! i = Some m /\ balances anchor (map snd mc) !! i = Some b.
Proof.
  unfold reconstruct. intros H.
  apply lookup_zip_with_Some in H as (m' & b' & Heq & Hm & Hb).
  injection Heq as -> ->. rewrite lookup_map in Hm. split; assumption.
Qed.

Lemma reconstruct_rounded_lookup (anchor : Q) (mc : list (Month * Q)) (i : nat) m r :
  reconstruct_rounded anchor mc !! i = Some (m, r) ->
  exists b, reconstruct anchor mc !! i = Some (m, b) /\ r = round2 b.
Proof.
  unfold reconstruct_rounded. rewrite lookup_map. intros H.
  destruct (reconstruct anchor mc !! i) as [[m' b]|]; simpl in H; [|discriminate].
  injection H as <- <-. exists b. split; reflexivity.
Qed.

Lemma length_reconstruct (anchor : Q) (mc : list (Month * Q)) :
  length (reconstruct anchor mc) = length mc.
Proof.
  unfold reconstruct. rewrite length_zip_with, length_balances, !length_map.
  lia.
Qed.

(** C1 (amended). For sorted monthly net changes [mc] and an anchor,
    the reconstructed series has one balance per month, balance[i] equals
    anchor minus the sum of the net changes of the strictly later months, and
    the differences of consecutive balances give back the net changes
    exactly. After the output rounding to 2 decimals, the re-derived
    differences are within 0.01 of the net changes. *)
Theorem cash_reconstruction_roundtrip (anchor : Q) (mc : list (Month * Q)) :
  length (reconstruct anchor mc) = length mc /\
  (forall i m b, reconstruct anchor mc !! i = Some (m, b) ->
     fst <$> (mc !! i) = Some m /\
     b == anchor - qsum (drop (S i) (map snd mc))) /\
  (forall i m0 b0 m1 b1 m n,
     reconstruct anchor mc !! i = Some (m0, b0) ->
     reconstruct anchor mc !! S i = Some (m1, b1) ->
     mc !! S i = Some (m, n) ->
     b1 - b0 == n) /\
  (forall i m0 r0 m1 r1 m n,
     reconstruct_rounded anchor mc !! i = Some (m0, r0) ->
     reconstruct_rounded anchor mc !! S i = Some (m1, r1) ->
     mc !! S i = Some (m, n) ->
     Qabs ((r1 - r0) - n) <= 1 # 100).
Proof.
  split; [apply length_reconstruct|]. split; [|split].
  - intros i m b H. apply reconstruct_lookup in H as [Hm Hb].
    split; [exact Hm|]. apply balances_lookup in Hb. exact Hb.
  - intros i m0 b0 m1 b1 m n H0 H1 Hn.
    apply reconstruct_lookup in H0 as [_ H0].
    apply reconstruct_lookup in H1 as [_ H1].
    apply (balances_diff anchor (map snd mc) i); [exact H0|exact H1|].
    rewrite lookup_map, Hn. reflexivity.
  - intros i m0 r0 m1 r1 m n H0 H1 Hn.
    apply reconstruct_rounded_lookup in H0 as (b0 & H0 & ->).
    apply reconstruct_rounded_lookup in H1 as (b1 & H1 & ->).
    apply reconstruct_lookup in H0 as [_ H0].
    apply reconstruct_lookup in H1 as [_ H1].
    assert (Hd : b1 - b0 == n).
    { apply (balances_diff anchor (map snd mc) i); [exact H0|exact H1|].
      rewrite lookup_map, Hn. reflexivity. }
    pose proof (round2_error b0) as E0. pose proof (round2_error b1) as E1.
    apply Qabs_Qle_condition in E0, E1. apply Qabs_Qle_condition.
    destruct E0, E1. split; lra.
Qed.

(** C1 (counterexample). The exact round trip fails on the rounded output:
    with anchor 0.004 and net changes [0; 0.003] the rounded balances are
    [0.00; 0.00], whose difference 0 is not the net change 0.003. *)
Lemma cash_rounded_roundtrip_fails :
  ~ (forall (anchor : Q) (mc : list (Month * Q)) i m0 r0 m1 r1 m n,
       reconstruct_rounded anchor mc !! i = Some (m0, r0) ->
       reconstruct_rounded anchor mc !! S i = Some (m1, r1) ->
       mc !! S i = Some (m, n) ->
       r1 - r0 == n).
Proof.
  intros H.
  specialize (H (1 # 250) [(0%nat, 0); (1%nat, 3 # 1000)] 0%nat
                _ _ _ _ _ _ eq_refl eq_refl eq_refl).
  vm_compute in H. discriminate H.
Qed.

Lemma qsum_map_sub {A} (d c : A -> Q) (l : list A) :
  qsum (map (fun x => d x - c x) l) == qsum (map d l) - qsum (map c l).
Proof. induction l as [|x l IH]; simpl; [ring|]. rewrite IH. ring. Qed.

Lemma reconstruct_months (anchor : Q) (mc : list (Month * Q)) :
  map fst (reconstruct anchor mc) = map fst mc.
Proof.
  unfold reconstruct. induction mc as [|[m n] mc IH]; [reflexivity|].
  simpl map at 2 3. rewrite balances_cons. simpl. f_equal. exact IH.
Qed.

Lemma reconstruct_rounded_months (anchor : Q) (mc : list (Month * Q)) :
  map fst (reconstruct_rounded anchor mc) = map fst mc.
Proof.
  unfold reconstruct_rounded. rewrite map_map. simpl.
  apply reconstruct_months.
Qed.

(** When the reconstructor succeeds, its rows are those of [monthly_change]
    (the empty-ledger path included). *)
Lemma build_months (fs : Files) windows snap out :
  raw_ledger fs = Some windows -> raw_snapshot fs = Some snap ->
  build_monthly_from_ledger fs = inr out ->
  map fst out = map fst (monthly_change (flatten windows)).
Proof.
  intros Hl Hs Hb. unfold build_monthly_from_ledger in Hb.
  rewrite Hl, Hs in Hb.
  destruct (flatten windows) as [|e rows] eqn:Ef.
  - injection Hb as <-. reflexivity.
  - destruct (load_snapshot_total_eur snap) as [err|a]; [discriminate|].
    destruct (rev_cum _); [discriminate|].
    injection Hb as <-. apply reconstruct_rounded_months.
Qed.

(** C8 (amended). The reconstructor's rows are one per month that has at
    least one ledger entry on a "57"-prefixed account, in ascending month
    order, and that month's net change is sum(debit) - sum(credit) over
    those entries; a month whose window holds no such entry gets no row. *)
Theorem monthly_change_per_cash_month (fs : Files) windows snap out :
  raw_ledger fs = Some windows -> raw_snapshot fs = Some snap ->
  build_monthly_from_ledger fs = inr out ->
  let rows := flatten windows in
  map fst out = map fst (monthly_change rows) /\
  NoDup (map fst out) /\ StronglySorted le (map fst out) /\
  (forall m, m ∈ map fst out <->
     exists e, e ∈ rows /\ is_cash_account e = true /\ le_month e = m) /\
  (forall m v, (m, v) ∈ monthly_change rows ->
     let es := filter (fun e => le_month e = m)
                 (filter (fun e => is_cash_account e = true) rows) in
     v == qsum (map le_debit es) - qsum (map le_credit es)).
Proof.
  intros Hl Hs Hb rows.
  pose proof (build_months fs windows snap out Hl Hs Hb) as Hm.
  fold rows in Hm. unfold monthly_change in *.
  destruct (group_sum_keys_spec le_month (fun e => le_debit e - le_credit e)
              (filter (fun e => is_cash_account e = true) rows)) as (Hnd & Hss & Hin).
  rewrite Hm. split; [reflexivity|]. split; [exact Hnd|]. split; [exact Hss|].
  split.
  - intros m. rewrite Hin. split.
    + intros (e & He & <-). apply list_elem_of_filter in He as [Hc He].
      exists e. auto.
    + intros (e & He & Hc & <-). exists e. split; [|reflexivity].
      apply list_elem_of_filter. auto.
  - intros m v Hv. apply group_sum_elem in Hv. rewrite Hv.
    apply qsum_map_sub.
Qed.

(** C8 (witness). *)
Lemma monthly_change_per_cash_month_witness :
  exists out,
    build_monthly_from_ledger
      (mkFiles (Some [mkWindow 1%nat [mkRawEntry (Some "5720") (Some 10) None];
                      mkWindow 2%nat [mkRawEntry (Some "600") (Some 5) None]])
               (Some [[("balance", Some 100)]])) = inr out /\
    map fst out = [1%nat].
Proof.
  exists [(1%nat, round2 100)]. split; [vm_compute; reflexivity|].
  pose proof (monthly_change_per_cash_month
    (mkFiles (Some [mkWindow 1%nat [mkRawEntry (Some "5720") (Some 10) None];
                    mkWindow 2%nat [mkRawEntry (Some "600") (Some 5) None]])
             (Some [[("balance", Some 100)]]))
    [mkWindow 1%nat [mkRawEntry (Some "5720") (Some 10) None];
     mkWindow 2%nat [mkRawEntry (Some "600") (Some 5) None]]
    [[("balance", Some 100)]] [(1%nat, round2 100)] eq_refl eq_refl
    ltac:(vm_compute; reflexivity)) as [H _].
  exact H.
Defined.

(** C8 (counterexample). Month 2 is in the ledger window set (its window has
    an entry, on account 600), yet the written series has no row for it. *)
Lemma cash_month_without_57_dropped :
  exists out,
    build_monthly_from_ledger
      (mkFiles (Some [mkWindow 1%nat [mkRawEntry (Some "5720") (Some 10) None];
                      mkWindow 2%nat [mkRawEntry (Some "600") (Some 5) None]])
               (Some [[("balance", Some 100)]])) = inr out /\
    2%nat ∉ map fst out.
Proof.
  eexists. split; [vm_compute; reflexivity|].
  simpl. rewrite list_elem_of_In. simpl. intros [H|[]]. discriminate H.
Qed.

(** C9. An empty set of flattened ledger entries yields the empty series
    (not an error); a missing ledger-window file or a missing snapshot file
    raises [FileNotFoundError] and no series is written. *)
Theorem build_empty_and_missing_files (fs : Files) :
  (forall windows snap,
     raw_ledger fs = Some windows -> raw_snapshot fs = Some snap ->
     flatten windows = [] -> build_monthly_from_ledger fs = inr []) /\
  (raw_ledger fs = None ->
     build_monthly_from_ledger fs = inl (FileNotFoundError RAW_LEDGER)) /\
  (forall windows, raw_ledger fs = Some windows -> raw_snapshot fs = None ->
     build_monthly_from_ledger fs = inl (FileNotFoundError RAW_SNAPSHOT)) /\
  ((raw_ledger fs = None \/ raw_snapshot fs = None) ->
     exists path, build_monthly_from_ledger fs = inl (FileNotFoundError path)).
Proof.
  unfold build_monthly_from_ledger.
  split; [|split; [|split]].
  - intros windows snap Hl Hs Hf. rewrite Hl, Hs, Hf. reflexivity.
  - intros Hl. rewrite Hl. reflexivity.
  - intros windows Hl Hs. rewrite Hl, Hs. reflexivity.
  - intros [Hl|Hs].
    + rewrite Hl. eexists. reflexivity.
    + destruct (raw_ledger fs); rewrite ?Hs; eexists; reflexivity.
Qed.

(** C9 (witness): windows without entries, and each file missing in turn. *)
Lemma build_empty_and_missing_files_witness :
  build_monthly_from_ledger
    (mkFiles (Some [mkWindow 1%nat []]) (Some [])) = inr [] /\
  build_monthly_from_ledger (mkFiles None (Some []))
    = inl (FileNotFoundError RAW_LEDGER) /\
  build_monthly_from_ledger (mkFiles (Some []) None)
    = inl (FileNotFoundError RAW_SNAPSHOT).
Proof.
  split; [|split].
  - apply (proj1 (build_empty_and_missing_files
                    (mkFiles (Some [mkWindow 1%nat []]) (Some []))))
      with (windows := [mkWindow 1%nat []]) (snap := []); reflexivity.
  - apply (proj1 (proj2 (build_empty_and_missing_files
                           (mkFiles None (Some []))))); reflexivity.
  - apply (proj1 (proj2 (proj2 (build_empty_and_missing_files
                                  (mkFiles (Some []) None)))))
      with (windows := []); reflexivity.
Defined.

End CashProofs.

(** ** Final merge *)
Module FinalMergeProofs.
Import Frame FrameProofs FinalMerge.

Lemma filter_neq_id (c : string) (t : list string) :
  c ∉ t -> filter (fun d => d <> c) t = t.
Proof.
  induction t as [|d t IH]; intros Hc; [reflexivity|].
  apply not_elem_of_cons in Hc as [Hne Hc].
  rewrite filter_cons. destruct (decide (d <> c)) as [_|H].
  2:{ exfalso. apply H. intros ->. apply Hne. reflexivity. }
  rewrite IH by exact Hc. reflexivity.
Qed.

Lemma keep_first_NoDup (cs : list string) : NoDup cs -> keep_first cs = cs.
Proof.
  induction cs as [|c t IH]; intros Hnd; [reflexivity|].
  apply NoDup_cons in Hnd as [Hc Hnd]. simpl.
  rewrite IH by exact Hnd. rewrite filter_neq_id by exact Hc. reflexivity.
Qed.

Lemma col_lookup_fill (c : string) (a : list (string * option Q)) :
  col_lookup c (fill_row a) =
  match col_lookup c a with Some v => Some (default 0 v) | None => None end.
Proof.
  induction a as [|[c' v] a IH]; [reflexivity|]. simpl.
  destruct (String.eqb c c'); [reflexivity|exact IH].
Qed.

Lemma StronglySorted_month_le (l : list (Month * list (string * Q))) :
  StronglySorted month_le l -> StronglySorted le (map fst l).
Proof.
  induction 1 as [|r l _ IH Hall]; simpl; constructor; [exact IH|].
  apply Forall_forall. intros k Hk. apply elem_of_map_iff in Hk as (r' & -> & Hr').
  rewrite Forall_forall in Hall. apply (Hall r' Hr').
Qed.

Lemma ordered_columns_tail (cs : list string) :
  tail (ordered_columns cs) =
  filter (fun c => c ∈ "month" :: cs) (tail preferred_order).
Proof.
  unfold ordered_columns, preferred_order at 1. rewrite filter_cons.
  destruct (decide ("month" ∈ "month" :: cs)) as [_|H]; [reflexivity|].
  exfalso. apply H. apply elem_of_cons. left. reflexivity.
Qed.

Lemma cell_absent (t : Frame) (k : Month) (c : string) :
  NoDup (keys t) -> k ∉ keys t -> cell t k c = None.
Proof.
  intros Hnd Hk. unfold cell, row_of, rows_at.
  rewrite filter_fst_nil by exact Hk. unfold null_row.
  rewrite col_lookup_map. destruct (decide (c ∈ cols t)); reflexivity.
Qed.

Lemma row_of_elem (f : Frame) (k : Month) (a : list (string * option Q)) :
  NoDup (keys f) -> (k, a) ∈ rows f -> row_of f k = a.
Proof.
  intros Hnd Hin. unfold row_of, rows_at. rewrite (filter_fst_elem _ k a Hnd Hin).
  reflexivity.
Qed.

#[export] Instance month_le_trans : Transitive month_le.
Proof. intros x y z. unfold month_le. lia. Qed.

#[export] Instance month_le_total : Total month_le.
Proof. intros x y. unfold month_le. lia. Qed.

(** The merge stage on any sequence of MetricTables with pairwise distinct
    value columns: the preferred columns present, one row per month of the
    union, ascending, each cell the owner table's value or 0. *)
Lemma run_pipeline_merge_spec (df0 : Frame) (rest : list Frame) :
  Forall WF (df0 :: rest) ->
  NoDup (concat (map cols (df0 :: rest))) ->
  let T := run_pipeline_merge (df0 :: rest) in
  fcols T = ordered_columns (concat (map cols (df0 :: rest))) /\
  NoDup (map fst (frows T)) /\
  StronglySorted le (map fst (frows T)) /\
  (forall k, k ∈ map fst (frows T) <-> exists t, t ∈ df0 :: rest /\ k ∈ keys t) /\
  (forall k cells, (k, cells) ∈ frows T ->
     map fst cells = tail (fcols T) /\
     forall t c, t ∈ df0 :: rest -> c ∈ cols t -> c ∈ tail (fcols T) ->
       col_lookup c cells = Some (default 0 (cell t k c))).
Proof.
  intros HW Hnd T.
  pose proof HW as HW'. apply Forall_cons in HW' as [H0 Hrest].
  destruct (merge_all_spec df0 rest H0 Hrest) as (HWM & HcM & _ & HkM).
  pose proof HWM as [HnM HdM].
  assert (HC : cols (merge_all df0 rest) = concat (map cols (df0 :: rest)))
    by (rewrite HcM; reflexivity).
  assert (HK : keep_first (cols (merge_all df0 rest)) = cols (merge_all df0 rest))
    by (apply keep_first_NoDup; rewrite HC; exact Hnd).
  unfold T, run_pipeline_merge, drop_duplicated, select. cbn [cols rows fcols frows].
  rewrite HK, HC.
  set (M := merge_all df0 rest) in *.
  set (C := concat (map cols (df0 :: rest))) in *.
  set (oc := ordered_columns C).
  set (filled := map (fun r => (fst r, fill_row (snd r)))
                   (map (fun r => (fst r, map (fun c => (c, default None (col_lookup c (snd r)))) C))
                        (rows M))).
  set (sorted := merge_sort month_le filled).
  assert (Hperm : sorted ≡ₚ filled) by apply merge_sort_Permutation.
  assert (Hkeys : map fst filled = keys M).
  { unfold filled, keys. rewrite !map_map. reflexivity. }
  assert (Hfst : map fst sorted ≡ₚ keys M)
    by (rewrite <- Hkeys; apply Permutation_map, Hperm).
  rewrite map_map. cbn [fst].
  split; [reflexivity|]. split; [|split; [|split]].
  - rewrite Hfst. exact HnM.
  - apply StronglySorted_month_le. apply StronglySorted_merge_sort; apply _.
  - intros k. rewrite Hfst, HkM. split.
    + intros [H|(t & Ht & H)].
      * exists df0. split; [apply elem_of_cons; left; reflexivity|exact H].
      * exists t. split; [apply elem_of_cons; right; exact Ht|exact H].
    + intros (t & Ht & H). apply elem_of_cons in Ht as [->|Ht]; [left; exact H|].
      right. exists t. auto.
  - intros k cells Hin.
    apply elem_of_map_iff in Hin as (r & Heq & Hr).
    rewrite Hperm in Hr. unfold filled in Hr.
    apply elem_of_map_iff in Hr as (r1 & -> & Hr1).
    apply elem_of_map_iff in Hr1 as ([k0 a0] & -> & Hr0).
    cbn [fst snd] in Heq. injection Heq as -> ->.
    split; [rewrite map_map; apply map_id|].
    intros t c Ht Hc Hoc.
    assert (HcC : c ∈ C).
    { unfold C. apply list_elem_of_In, in_concat. exists (cols t). split.
      - apply in_map, list_elem_of_In, Ht.
      - apply list_elem_of_In, Hc. }
    rewrite col_lookup_map, decide_True by exact Hoc.
    rewrite col_lookup_fill, col_lookup_map, decide_True by exact HcC.
    rewrite <- (cell_merge_all df0 rest t k0 c H0 Hrest Hnd Ht Hc). fold M.
    unfold cell. rewrite (row_of_elem M k0 a0 HnM Hr0).
    destruct (col_lookup c a0); reflexivity.
Qed.

Lemma WF_of_series (c : string) (xs : list (Month * Q)) :
  NoDup (map fst xs) -> WF (of_series c xs).
Proof.
  intros Hnd. split.
  - unfold keys, of_series. simpl. rewrite map_map. exact Hnd.
  - intros r Hr. unfold of_series in Hr. simpl in Hr.
    apply elem_of_map_iff in Hr as (p & -> & _). reflexivity.
Qed.

Lemma WF_empty (cs : list string) : WF (mkFrame cs []).
Proof. split; [constructor|]. intros r Hr. inversion Hr. Qed.

(** C2: the final merge of [run_pipeline] on the 21 tables of the declared
    sequence, each a MetricTable (at most one row per month, every row with
    the table's columns): the columns are the preferred ones present (the two
    ChartMogul churn-rate columns, named with dashes, and [total_costs] are
    not among them); one row per month of the union of the tables' months,
    ascending; every cell the value of the table owning the column, and 0
    when that table has no row for the month or a NaN there. *)
Theorem final_merge_union_sorted_projected (dfs : list Frame) :
  Forall WF dfs -> map cols dfs = pipeline_schemas ->
  let T := run_pipeline_merge dfs in
  fcols T = ["month"; "mrr"; "expansion_mrr"; "contraction_mrr"; "new_mrr";
             "churned_mrr"; "net_new_mrr"; "arr"; "arpa"; "customers"; "ltv";
             "cac_costs"; "new_customers"; "cac"; "cac_ltv_ratio"; "opex"; "cogs";
             "financial_costs"; "ebitda"; "burn_rate"; "net_burn";
             "cash_balance_eur"; "runway"] /\
  fcols T = ordered_columns (concat (map cols dfs)) /\
  NoDup (map fst (frows T)) /\
  StronglySorted le (map fst (frows T)) /\
  (forall k, k ∈ map fst (frows T) <-> exists t, t ∈ dfs /\ k ∈ keys t) /\
  (forall k cells, (k, cells) ∈ frows T ->
     map fst cells = tail (fcols T) /\
     forall t c, t ∈ dfs -> c ∈ cols t -> c ∈ tail (fcols T) ->
       col_lookup c cells = Some (default 0 (cell t k c)) /\
       (k ∉ keys t -> col_lookup c cells = Some 0)).
Proof.
  intros HW Hcols T.
  destruct dfs as [|df0 rest]; [discriminate Hcols|].
  assert (Hnd : NoDup (concat (map cols (df0 :: rest)))).
  { rewrite Hcols. apply (bool_decide_unpack _). vm_compute. reflexivity. }
  destruct (run_pipeline_merge_spec df0 rest HW Hnd)
    as (Hfc & HnoDup & Hsorted & Hkeys & Hcells).
  fold T in Hfc, HnoDup, Hsorted, Hkeys, Hcells.
  split; [rewrite Hfc, Hcols; vm_compute; reflexivity|].
  split; [exact Hfc|]. split; [exact HnoDup|]. split; [exact Hsorted|].
  split; [exact Hkeys|].
  intros k cells Hin. destruct (Hcells k cells Hin) as [Hdom Hval].
  split; [exact Hdom|]. intros t c Ht Hc Hoc.
  split; [apply Hval; assumption|]. intros Hk.
  rewrite (Hval t c Ht Hc Hoc).
  rewrite Forall_forall in HW. destruct (HW t Ht) as [HtN _].
  rewrite cell_absent by assumption. reflexivity.
Qed.

(** Witness for C2: MRR for months 1 and 2, every other table empty. *)
Lemma final_merge_union_sorted_projected_witness :
  let dfs := of_series "mrr" [(1%nat, 100); (2%nat, 120)]
             :: map (fun cs => mkFrame cs []) (tail pipeline_schemas) in
  map fst (frows (run_pipeline_merge dfs)) = [1%nat; 2%nat] /\
  (Forall WF dfs /\ map cols dfs = pipeline_schemas) /\
  fcols (run_pipeline_merge dfs) = ordered_columns (concat (map cols dfs)).
Proof.
  intros dfs.
  assert (HW : Forall WF dfs).
  { apply Forall_cons. split.
    - apply WF_of_series. apply (bool_decide_unpack _). vm_compute. reflexivity.
    - apply Forall_forall. intros t Ht. apply elem_of_map_iff in Ht as (cs & -> & _).
      apply WF_empty. }
  assert (Hc : map cols dfs = pipeline_schemas) by reflexivity.
  split; [vm_compute; reflexivity|]. split; [split; assumption|].
  exact (proj1 (proj2 (final_merge_union_sorted_projected dfs HW Hc))).
Defined.

End FinalMergeProofs.

(** ** Tagged cost buckets *)
Module CostsProofs.
Import Frame FrameProofs Costs.

Lemma tagged_cost_store (tag : string) (st : Store) :
  fst (tagged_cost tag st) = mkStore (map clean_contact (contacts st)) (purchases st).
Proof. reflexivity. Qed.

(** Both branches of [if not df.empty] give the grouped sums. *)
Lemma tagged_cost_out (tag : string) (st : Store) :
  snd (tagged_cost tag st) =
  group_sum p_month (fun p => default 0 (p_total_eur p))
    (filter (fun p => is_tagged_purchase (tagged_ids tag (map clean_contact (contacts st))) p = true)
            (purchases st)).
Proof.
  unfold tagged_cost. cbv zeta. cbn [snd].
  destruct (filter _ (purchases st)); reflexivity.
Qed.

Lemma tagged_ids_spec (tag : string) (cs : list Contact) (i : string) :
  i ∈ tagged_ids tag (map clean_contact cs) <->
  exists c, c ∈ cs /\ c_id c = i /\
    contains_ci tag (default "" (c_tags c)) = true /\
    lower (default "" (c_type c)) = "supplier".
Proof.
  unfold tagged_ids. rewrite elem_of_map_iff. split.
  - intros (c' & -> & Hc'). apply list_elem_of_filter in Hc' as [Hp Hin].
    apply elem_of_map_iff in Hin as (c & -> & Hc). exists c.
    simpl in Hp. apply andb_true_iff in Hp as [H1 H2].
    apply String.eqb_eq in H2. auto.
  - intros (c & Hc & <- & H1 & H2). exists (clean_contact c).
    split; [reflexivity|]. apply list_elem_of_filter. split.
    + simpl. rewrite H1, H2. reflexivity.
    + apply elem_of_map_iff. exists c. auto.
Qed.

Lemma is_tagged_purchase_spec (ids : list string) (p : Purchase) :
  is_tagged_purchase ids p = true <-> p_contact p ∈ ids /\ p_status p = 1%Z.
Proof.
  unfold is_tagged_purchase. rewrite andb_true_iff, bool_decide_eq_true, Z.eqb_eq.
  reflexivity.
Qed.

(** Contacts that agree on id, type and the tag test select the same ids. *)
Lemma tagged_ids_congr (tag : string) (cs1 cs2 : list Contact) :
  Forall2 (fun c1 c2 => c_id c1 = c_id c2 /\ c_type c1 = c_type c2 /\
             contains_ci tag (default "" (c_tags c1)) =
             contains_ci tag (default "" (c_tags c2))) cs1 cs2 ->
  tagged_ids tag (map clean_contact cs1) = tagged_ids tag (map clean_contact cs2).
Proof.
  induction 1 as [|c1 c2 l1 l2 (Hi & Ht & Hc) _ IH]; [reflexivity|].
  unfold tagged_ids in *. simpl. rewrite !filter_cons. simpl.
  rewrite Hc, Ht. destruct (decide _); simpl; rewrite ?Hi, IH; reflexivity.
Qed.

(** C5: a purchase enters the bucket of [tag] iff a supplier contact with
    its id has [tag] in its tags (case-insensitively, null read as ""), and
    the purchase is confirmed; the bucket of a month is the sum of
    [total_eur] over those purchases of the month; and a contact tagged
    "OPEX, Vendor" gives the same OPEX table as one tagged "opex". *)
Theorem tagged_cost_classification (tag : string) (st : Store) :
  (forall p, is_tagged_purchase (tagged_ids tag (map clean_contact (contacts st))) p = true <->
     (exists c, c ∈ contacts st /\ c_id c = p_contact p /\
        contains_ci tag (default "" (c_tags c)) = true /\
        lower (default "" (c_type c)) = "supplier") /\ p_status p = 1%Z) /\
  NoDup (map fst (snd (tagged_cost tag st))) /\
  (forall m, m ∈ map fst (snd (tagged_cost tag st)) <->
     exists p, p ∈ purchases st /\
       is_tagged_purchase (tagged_ids tag (map clean_contact (contacts st))) p = true /\
       p_month p = m) /\
  (forall m v, (m, v) ∈ snd (tagged_cost tag st) ->
     v = qsum (map (fun p => default 0 (p_total_eur p))
                (filter (fun p => p_month p = m /\
                   is_tagged_purchase (tagged_ids tag (map clean_contact (contacts st))) p = true)
                   (purchases st)))) /\
  (forall cs1 cs2 i ty ps,
     snd (calculate_opex (mkStore (cs1 ++ mkContact i (Some "OPEX, Vendor") ty :: cs2) ps)) =
     snd (calculate_opex (mkStore (cs1 ++ mkContact i (Some "opex") ty :: cs2) ps))).
Proof.
  split; [|split; [|split; [|split]]].
  - intros p. rewrite is_tagged_purchase_spec, tagged_ids_spec. reflexivity.
  - rewrite tagged_cost_out. apply group_sum_keys_spec.
  - intros m. rewrite tagged_cost_out.
    destruct (group_sum_keys_spec p_month (fun p => default 0 (p_total_eur p))
      (filter (fun p => is_tagged_purchase (tagged_ids tag (map clean_contact (contacts st))) p = true)
              (purchases st))) as (_ & _ & Hk).
    rewrite Hk. split.
    + intros (p & Hp & Hm). apply list_elem_of_filter in Hp as [Ht Hp]. eauto.
    + intros (p & Hp & Ht & Hm). exists p. split; [|exact Hm].
      apply list_elem_of_filter. auto.
  - intros m v Hin. rewrite tagged_cost_out in Hin.
    apply group_sum_elem in Hin as ->. rewrite list_filter_filter. reflexivity.
  - intros cs1 cs2 i ty ps. unfold calculate_opex. rewrite !tagged_cost_out.
    cbn [contacts purchases].
    rewrite (tagged_ids_congr "opex" (cs1 ++ mkContact i (Some "OPEX, Vendor") ty :: cs2)
                                     (cs1 ++ mkContact i (Some "opex") ty :: cs2)).
    + reflexivity.
    + apply Forall2_app; [apply Forall2_same_length_lookup_2; [reflexivity|]; intros; simplify_eq; auto|].
      constructor; [split; [reflexivity|split; reflexivity]|].
      apply Forall2_same_length_lookup_2; [reflexivity|]; intros; simplify_eq; auto.
Qed.

End CostsProofs.

(** ** CAC *)
Module CacProofs.
Import Frame FrameProofs FinalMergeProofs Costs CostsProofs.

Lemma keys_of_series (c : string) (xs : list (Month * Q)) :
  keys (of_series c xs) = map fst xs.
Proof. unfold keys, of_series. simpl. rewrite map_map. reflexivity. Qed.

Lemma row_of_series_in (c : string) (xs : list (Month * Q)) (k : Month) (v : Q) :
  NoDup (map fst xs) -> (k, v) ∈ xs -> row_of (of_series c xs) k = [(c, Some v)].
Proof.
  intros Hnd Hin. apply row_of_elem; [rewrite keys_of_series; exact Hnd|].
  unfold of_series. simpl. apply elem_of_map_iff. exists (k, v). auto.
Qed.

Lemma row_of_series_out (c : string) (xs : list (Month * Q)) (k : Month) :
  k ∉ map fst xs -> row_of (of_series c xs) k = [(c, None)].
Proof.
  intros Hk. unfold row_of, rows_at. rewrite filter_fst_nil; [reflexivity|].
  fold (keys (of_series c xs)). rewrite keys_of_series. exact Hk.
Qed.

Lemma group_sum_absent {A} (key : A -> Month) (val : A -> Q) (xs : list A) (k : Month) :
  k ∉ map fst (group_sum key val xs) -> filter (fun x => key x = k) xs = [].
Proof.
  intros Hk. destruct (filter (fun x => key x = k) xs) as [|x t] eqn:E; [reflexivity|].
  exfalso. apply Hk. destruct (group_sum_keys_spec key val xs) as (_ & _ & Hm).
  apply Hm. assert (Hx : x ∈ filter (fun x => key x = k) xs)
    by (rewrite E; apply elem_of_cons; left; reflexivity).
  apply list_elem_of_filter in Hx as [Hx1 Hx2]. eauto.
Qed.

Lemma elem_of_dated_customers (cus : list Customer) (m : Month) (u : option string) :
  (m, u) ∈ dated_customers cus <->
  exists cu, cu ∈ cus /\ customer_since cu = Some m /\ uuid cu = u.
Proof.
  unfold dated_customers. rewrite list_elem_of_omap. split.
  - intros (cu & Hcu & E). destruct (customer_since cu) as [m'|] eqn:Es; [|discriminate].
    injection E as <- <-. eauto.
  - intros (cu & Hcu & Es & Eu). exists cu. rewrite Es, Eu. auto.
Qed.

Lemma new_customers_eq (cus : list Customer) :
  new_customers cus =
  map (fun m => (m, inject_Z (Z.of_nat (length (remove_dups
          (omap snd (filter (fun r => fst r = m) (dated_customers cus))))))))
      (group_keys (map fst (dated_customers cus))).
Proof. reflexivity. Qed.

Lemma new_customers_keys (cus : list Customer) :
  map fst (new_customers cus) = group_keys (map fst (dated_customers cus)).
Proof. rewrite new_customers_eq, map_map. apply map_id. Qed.

Lemma new_customers_month (cus : list Customer) (k : Month) :
  k ∈ map fst (new_customers cus) <-> exists cu, cu ∈ cus /\ customer_since cu = Some k.
Proof.
  rewrite new_customers_keys, group_keys_elem, elem_of_map_iff. split.
  - intros ([m u] & -> & H). apply elem_of_dated_customers in H as (cu & ? & ? & _).
    eauto.
  - intros (cu & Hcu & Es). exists (k, uuid cu). split; [reflexivity|].
    apply elem_of_dated_customers. eauto.
Qed.

Lemma uuids_of_month (cus : list Customer) (k : Month) (u : string) :
  u ∈ remove_dups (omap snd (filter (fun r => fst r = k) (dated_customers cus))) <->
  exists cu, cu ∈ cus /\ customer_since cu = Some k /\ uuid cu = Some u.
Proof.
  rewrite elem_of_remove_dups, list_elem_of_omap. split.
  - intros ([m u'] & Hr & E). simpl in E. subst u'.
    apply list_elem_of_filter in Hr as [Hm Hr]. simpl in Hm. subst m.
    apply elem_of_dated_customers in Hr. exact Hr.
  - intros H. exists (k, Some u). split; [|reflexivity].
    apply list_elem_of_filter. split; [reflexivity|].
    apply elem_of_dated_customers. exact H.
Qed.

Lemma calculate_cac_eq (st : Store) (cus : list Customer) :
  snd (calculate_cac st cus) =
  map (fun r =>
         let a := fill_row (snd r) in
         let n := default 0 (col_lookup "new_customers" a) in
         let c := default 0 (col_lookup "cac_costs" a) in
         (fst r, mkCacRow c n (if Qlt_le_dec 0 n then c / n else 0)))
      (rows (merge_outer (of_series "new_customers" (new_customers cus))
                         (of_series "cac_costs" (snd (tagged_cost "cac" st))))).
Proof. unfold calculate_cac. destruct (tagged_cost "cac" st). reflexivity. Qed.

(** C4: one row per month that has a dated customer or CAC spend; its
    [new_customers] is the number of distinct non-null uuids of the
    customers whose customer-since falls in the month, its [cac_costs] the
    confirmed CAC-tagged spend of the month (both 0 when absent), and [cac]
    their quotient when [new_customers > 0], otherwise exactly 0. *)
Theorem calculate_cac_new_customers_and_division (st : Store) (cus : list Customer) :
  let out := snd (calculate_cac st cus) in
  let ids := tagged_ids "cac" (map clean_contact (contacts st)) in
  NoDup (map fst out) /\
  (forall k, k ∈ map fst out <->
     (exists cu, cu ∈ cus /\ customer_since cu = Some k) \/
     (exists p, p ∈ purchases st /\ is_tagged_purchase ids p = true /\ p_month p = k)) /\
  (forall k r, (k, r) ∈ out ->
     (exists us, NoDup us /\
        (forall u, u ∈ us <->
           exists cu, cu ∈ cus /\ customer_since cu = Some k /\ uuid cu = Some u) /\
        new_customers_count r = inject_Z (Z.of_nat (length us))) /\
     cac_costs r = qsum (map (fun p => default 0 (p_total_eur p))
                      (filter (fun p => p_month p = k /\ is_tagged_purchase ids p = true)
                         (purchases st))) /\
     (0 < new_customers_count r -> cac r = cac_costs r / new_customers_count r) /\
     (~ 0 < new_customers_count r -> cac r = 0)).
Proof.
  intros out ids. unfold out. rewrite calculate_cac_eq.
  set (NC := new_customers cus).
  set (CO := snd (tagged_cost "cac" st)).
  assert (HNC : NoDup (map fst NC)) by (unfold NC; rewrite new_customers_keys; apply group_keys_NoDup).
  assert (HCO : NoDup (map fst CO))
    by (unfold CO; rewrite tagged_cost_out; apply group_sum_keys_spec).
  assert (HCOk : forall k, k ∈ map fst CO <->
            exists p, p ∈ purchases st /\ is_tagged_purchase ids p = true /\ p_month p = k).
  { intros k. unfold CO. rewrite tagged_cost_out. fold ids.
    destruct (group_sum_keys_spec p_month (fun p => default 0 (p_total_eur p))
       (filter (fun p => is_tagged_purchase ids p = true) (purchases st))) as (_ & _ & Hk).
    rewrite Hk. split.
    - intros (p & Hp & Hm). apply list_elem_of_filter in Hp as [Ht Hp]. eauto.
    - intros (p & Hp & Ht & Hm). exists p. split; [|exact Hm].
      apply list_elem_of_filter. auto. }
  rewrite merge_rows by (rewrite keys_of_series; assumption).
  rewrite !keys_of_series, !map_map. cbn [fst].
  split; [|split].
  - rewrite map_id. apply group_keys_NoDup.
  - intros k. rewrite map_id, group_keys_elem, elem_of_app, HCOk.
    unfold NC. rewrite new_customers_month. reflexivity.
  - intros k r Hin. apply elem_of_map_iff in Hin as (k0 & Heq & _).
    cbv zeta in Heq. cbn [fst snd] in Heq. injection Heq as <- ->.
    cbn [cac_costs new_customers_count cac].
    set (us := remove_dups (omap snd (filter (fun r => fst r = k) (dated_customers cus)))).
    assert (Hn : default 0 (col_lookup "new_customers"
                   (fill_row (row_of (of_series "new_customers" NC) k ++
                              row_of (of_series "cac_costs" CO) k))) =
                 inject_Z (Z.of_nat (length us))).
    { destruct (decide (k ∈ map fst NC)) as [Hk|Hk].
      - apply elem_of_map_iff in Hk as ([k' v] & Ek & Hk). cbn [fst] in Ek. subst k'.
        rewrite (row_of_series_in "new_customers" NC k v HNC Hk). simpl.
        unfold NC in Hk. rewrite new_customers_eq in Hk.
        apply elem_of_map_iff in Hk as (m & Hm & _). injection Hm as -> ->.
        reflexivity.
      - rewrite (row_of_series_out "new_customers" NC k Hk). simpl.
        unfold us. rewrite filter_fst_nil; [reflexivity|].
        intros Hk'. apply Hk. unfold NC. rewrite new_customers_keys, group_keys_elem.
        exact Hk'. }
    assert (Hc : default 0 (col_lookup "cac_costs"
                   (fill_row (row_of (of_series "new_customers" NC) k ++
                              row_of (of_series "cac_costs" CO) k))) =
                 qsum (map (fun p => default 0 (p_total_eur p))
                   (filter (fun p => p_month p = k /\ is_tagged_purchase ids p = true)
                      (purchases st)))).
    { assert (Hl : col_lookup "cac_costs"
                     (fill_row (row_of (of_series "new_customers" NC) k)) = None).
      { destruct (decide (k ∈ map fst NC)) as [Hk|Hk].
        - apply elem_of_map_iff in Hk as ([k' v] & Ek & Hk). cbn [fst] in Ek. subst k'.
          rewrite (row_of_series_in "new_customers" NC k v HNC Hk). reflexivity.
        - rewrite (row_of_series_out "new_customers" NC k Hk). reflexivity. }
      unfold fill_row. rewrite map_app. fold (fill_row (row_of (of_series "new_customers" NC) k)).
      rewrite col_lookup_app, Hl.
      rewrite <- list_filter_filter.
      destruct (decide (k ∈ map fst CO)) as [Hk|Hk].
      - apply elem_of_map_iff in Hk as ([k' v] & Ek & Hk). cbn [fst] in Ek. subst k'.
        rewrite (row_of_series_in "cac_costs" CO k v HCO Hk). simpl.
        unfold CO in Hk. rewrite tagged_cost_out in Hk. fold ids in Hk.
        apply group_sum_elem in Hk. exact Hk.
      - rewrite (row_of_series_out "cac_costs" CO k Hk). simpl.
        unfold CO in Hk. rewrite tagged_cost_out in Hk. fold ids in Hk.
        apply group_sum_absent in Hk. rewrite Hk. reflexivity. }
    rewrite Hn, Hc.
    split; [exists us; split; [apply NoDup_remove_dups|split; [apply uuids_of_month|reflexivity]]|].
    split; [reflexivity|]. split.
    + intros Hpos. destruct (Qlt_le_dec 0 _) as [_|Hle]; [reflexivity|].
      exfalso. exact (Qle_not_lt _ _ Hle Hpos).
    + intros Hnpos. destruct (Qlt_le_dec 0 _) as [Hlt|_]; [contradiction|reflexivity].
Qed.

End CacProofs.

(** ** EBITDA and burn rate *)
Module EbitdaProofs.
Import Frame FrameProofs FinalMergeProofs Ebitda.

Lemma keys_select (cs : list string) (f : Frame) : keys (select cs f) = keys f.
Proof. unfold keys, select. simpl. rewrite map_map. reflexivity. Qed.

Lemma WF_select (cs : list string) (f : Frame) : NoDup (keys f) -> WF (select cs f).
Proof.
  intros Hnd. split; [rewrite keys_select; exact Hnd|].
  intros r Hr. unfold select in Hr. simpl in Hr.
  apply elem_of_map_iff in Hr as (r' & -> & _). simpl.
  rewrite map_map. apply map_id.
Qed.

Lemma cell_select (cs : list string) (f : Frame) (k : Month) (c : string) :
  NoDup (keys f) -> c ∈ cs -> cell (select cs f) k c = cell f k c.
Proof.
  intros Hnd Hc. destruct (decide (k ∈ keys f)) as [Hk|Hk].
  - apply elem_of_map_iff in Hk as ([k' a] & Ek & Hin). cbn [fst] in Ek. subst k'.
    unfold cell. rewrite (row_of_elem f k a Hnd Hin).
    rewrite (row_of_elem (select cs f) k
               (map (fun c => (c, default None (col_lookup c a))) cs)).
    + rewrite col_lookup_map, decide_True by exact Hc.
      destruct (col_lookup c a); reflexivity.
    + rewrite keys_select. exact Hnd.
    + unfold select. simpl. apply elem_of_map_iff. exists (k, a). auto.
  - rewrite !cell_absent; rewrite ?keys_select; first [reflexivity|assumption].
Qed.

(** A row of the [fillna(0)]-ed merge holds, for a column owned by one of
    the tables, that table's value at the month, or 0. *)
Lemma merged_row_value (f : Frame) (fs : list Frame) (k : Month)
    (a : list (string * option Q)) (t : Frame) (c : string) :
  WF f -> Forall WF fs -> NoDup (concat (map cols (f :: fs))) ->
  (k, a) ∈ rows (merge_all f fs) -> t ∈ f :: fs -> c ∈ cols t ->
  default 0 (col_lookup c (fill_row a)) = default 0 (cell t k c).
Proof.
  intros Hf Hfs Hnd Hin Ht Hc.
  destruct (merge_all_spec f fs Hf Hfs) as ([HnM _] & _ & _ & _).
  rewrite <- (cell_merge_all f fs t k c Hf Hfs Hnd Ht Hc).
  unfold cell. rewrite (row_of_elem _ k a HnM Hin), col_lookup_fill.
  destruct (col_lookup c a); reflexivity.
Qed.

(** C3: [calculate_ebitda] has one row per month of the union of the five
    tables, holding mrr - (opex + cogs + financial_costs + cac_costs) with
    the cells of a table lacking the month (or NaN) read as 0;
    [calculate_burn_rate] keeps these months and holds [abs ebitda], which
    is non-negative and equal to ebitda when ebitda is non-negative. *)
Theorem ebitda_formula_and_burn_rate (df_mrr df_opex df_cogs df_fin df_cac : Frame) :
  WF df_mrr -> WF df_opex -> WF df_cogs -> WF df_fin -> NoDup (keys df_cac) ->
  cols df_mrr = ["mrr"] -> cols df_opex = ["opex"] -> cols df_cogs = ["cogs"] ->
  cols df_fin = ["financial_costs"] ->
  let e := calculate_ebitda df_mrr df_opex df_cogs df_fin df_cac in
  let z t c k := default 0 (cell t k c) in
  NoDup (map fst e) /\
  (forall k, k ∈ map fst e <->
     k ∈ keys df_mrr \/ k ∈ keys df_opex \/ k ∈ keys df_cogs \/
     k ∈ keys df_fin \/ k ∈ keys df_cac) /\
  (forall k v, (k, v) ∈ e ->
     v = z df_mrr "mrr" k - (z df_opex "opex" k + z df_cogs "cogs" k +
                             z df_fin "financial_costs" k + z df_cac "cac_costs" k)) /\
  map fst (calculate_burn_rate e) = map fst e /\
  (forall k b, (k, b) ∈ calculate_burn_rate e ->
     exists v, (k, v) ∈ e /\ b = Qabs v /\ 0 <= b /\ (0 <= v -> b == v)).
Proof.
  intros Hm Ho Hc Hf Hcac Cm Co Cc Cf e z.
  set (sel := select ["cac_costs"] df_cac).
  assert (Hsel : WF sel) by (apply WF_select; exact Hcac).
  assert (HW : Forall WF [df_opex; df_cogs; df_fin; sel]) by (repeat (constructor; [assumption|]); constructor).
  assert (Hnd : NoDup (concat (map cols [df_mrr; df_opex; df_cogs; df_fin; sel]))).
  { simpl. rewrite Cm, Co, Cc, Cf. apply (bool_decide_unpack _). vm_compute. reflexivity. }
  destruct (merge_all_spec df_mrr [df_opex; df_cogs; df_fin; sel] Hm HW)
    as ([HnM _] & _ & _ & HkM).
  assert (Hfst : map fst e = keys (merge_all df_mrr [df_opex; df_cogs; df_fin; sel])).
  { unfold e, calculate_ebitda. fold sel. rewrite map_map. reflexivity. }
  split; [|split; [|split; [|split]]].
  - rewrite Hfst. exact HnM.
  - intros k. rewrite Hfst, HkM. unfold sel. rewrite <- (keys_select ["cac_costs"] df_cac).
    fold sel. split.
    + intros [H|(t & Ht & H)]; [left; exact H|].
      repeat (apply elem_of_cons in Ht as [->|Ht]; [tauto|]). inversion Ht.
    + intros [H|[H|[H|[H|H]]]]; [left; exact H|..]; right.
      * exists df_opex. split; [apply elem_of_cons; left; reflexivity|exact H].
      * exists df_cogs. split; [do 1 apply elem_of_cons; right; apply elem_of_cons; left; reflexivity|exact H].
      * exists df_fin. split; [|exact H].
        do 2 (apply elem_of_cons; right). apply elem_of_cons; left; reflexivity.
      * exists sel. split; [|exact H].
        do 3 (apply elem_of_cons; right). apply elem_of_cons; left; reflexivity.
  - intros k v Hin. unfold e, calculate_ebitda in Hin. fold sel in Hin.
    apply elem_of_map_iff in Hin as ([k' a] & Heq & Hin). cbv zeta in Heq.
    cbn [fst snd] in Heq. injection Heq as <- ->.
    assert (Hv : forall t c, t ∈ [df_mrr; df_opex; df_cogs; df_fin; sel] -> c ∈ cols t ->
               default 0 (col_lookup c (fill_row a)) = default 0 (cell t k c))
      by (intros t c Ht Hct; exact (merged_row_value _ _ k a t c Hm HW Hnd Hin Ht Hct)).
    unfold z.
    rewrite (Hv df_mrr "mrr"), (Hv df_opex "opex"), (Hv df_cogs "cogs"),
            (Hv df_fin "financial_costs"), (Hv sel "cac_costs");
      try (rewrite ?Cm, ?Co, ?Cc, ?Cf; apply list_elem_of_singleton; reflexivity);
      try (repeat (apply elem_of_cons; (left; reflexivity) || right)).
    unfold sel. rewrite cell_select by (exact Hcac || (apply list_elem_of_singleton; reflexivity)).
    reflexivity.
  - unfold calculate_burn_rate. rewrite map_map. reflexivity.
  - intros k b Hin. unfold calculate_burn_rate in Hin.
    apply elem_of_map_iff in Hin as ([k' v] & Heq & Hin). cbn [fst snd] in Heq.
    injection Heq as <- ->. exists v. split; [exact Hin|].
    split; [reflexivity|]. split; [apply Qabs_nonneg|].
    intros Hv. rewrite Qabs_pos by exact Hv. reflexivity.
Qed.

(** Witness for C3: MRR in month 1, OPEX in months 1 and 2, CAC spend in
    month 2. *)
Lemma ebitda_formula_and_burn_rate_witness :
  let e := calculate_ebitda (of_series "mrr" [(1%nat, 100)])
             (of_series "opex" [(1%nat, 30); (2%nat, 10)])
             (of_series "cogs" []) (of_series "financial_costs" [])
             (of_series "cac_costs" [(2%nat, 5)]) in
  e = [(1%nat, 70); (2%nat, -15)] /\
  calculate_burn_rate e = [(1%nat, 70); (2%nat, 15)] /\
  NoDup (map fst e).
Proof.
  intros e. split; [vm_compute; reflexivity|]. split; [vm_compute; reflexivity|].
  refine (proj1 (ebitda_formula_and_burn_rate _ _ _ _ _ _ _ _ _ _ _ _ _ _));
    try reflexivity;
    try (apply WF_of_series; apply (bool_decide_unpack _); vm_compute; reflexivity);
    try (apply (bool_decide_unpack _); vm_compute; reflexivity).
Defined.

End EbitdaProofs.

(** ** Runway *)
Module RunwayProofs.
Import Frame FrameProofs FinalMergeProofs CacProofs Runway.

Lemma keys_group_last (cash : list (Month * option Q)) :
  keys (group_last cash) = group_keys (map fst cash).
Proof. unfold keys, group_last. simpl. rewrite map_map. apply map_id. Qed.

Lemma row_of_group_last (cash : list (Month * option Q)) (k : Month) :
  row_of (group_last cash) k =
  [("cash_balance_eur", last_valid (map snd (filter (fun r => fst r = k) cash)))].
Proof.
  assert (Hnd : NoDup (keys (group_last cash)))
    by (rewrite keys_group_last; apply group_keys_NoDup).
  destruct (decide (k ∈ group_keys (map fst cash))) as [Hk|Hk].
  - apply row_of_elem; [exact Hnd|]. unfold group_last. simpl.
    apply elem_of_map_iff. exists k. auto.
  - unfold row_of, rows_at. rewrite filter_fst_nil.
    + rewrite group_keys_elem in Hk. rewrite filter_fst_nil by exact Hk. reflexivity.
    + fold (keys (group_last cash)). rewrite keys_group_last. exact Hk.
Qed.

Lemma fst_unique {V} (l : list (Month * V)) (k : Month) (v1 v2 : V) :
  NoDup (map fst l) -> (k, v1) ∈ l -> (k, v2) ∈ l -> v1 = v2.
Proof.
  intros Hnd H1 H2. pose proof (filter_fst_elem l k v1 Hnd H1) as E1.
  rewrite (filter_fst_elem l k v2 Hnd H2) in E1. congruence.
Qed.

Lemma runway_cell_spec (cv b : Q) :
  (b == 0 -> runway_cell cv (Some b) = None) /\
  (~ b == 0 -> runway_cell cv (Some b) = Some (round2 (cv / b))).
Proof.
  unfold runway_cell. split; intros H.
  - apply Qeq_bool_iff in H. rewrite H. reflexivity.
  - destruct (Qeq_bool b 0) eqn:E; [|reflexivity].
    apply Qeq_bool_iff in E. contradiction.
Qed.

(** C6: each row [(month, cash, runway)] of [calculate_runway]: for a month
    of the burn table with burn value [b] (NaN read as 0), the runway is
    [None] when [b = 0] and [round(cash / b, 2)] otherwise; a month only in
    the cash table has no burn and a [None] runway; the cash is the constant,
    or the month's last non-null balance (0 if none). The months are those of
    the burn table, and on the table path also those of the cash table. *)
Theorem runway_null_when_no_burn (burn : list (Month * option Q)) (src : CashSource) :
  NoDup (map fst burn) ->
  let out := calculate_runway burn src in
  (forall k, k ∈ map (fun x => fst (fst x)) out <->
     k ∈ map fst burn \/
     match src with ConstCash _ => False | CashFrame cash => k ∈ map fst cash end) /\
  (forall k cv rw, (k, cv, rw) ∈ out ->
     (forall v, (k, v) ∈ burn ->
        (default 0 v == 0 -> rw = None) /\
        (~ default 0 v == 0 -> rw = Some (round2 (cv / default 0 v)))) /\
     (k ∉ map fst burn -> rw = None) /\
     cv = match src with
          | ConstCash c => c
          | CashFrame cash => default 0 (last_valid (map snd (filter (fun r => fst r = k) cash)))
          end).
Proof.
  intros Hnd out. unfold out, calculate_runway.
  set (df := map (fun p => (fst p, default 0 (snd p))) burn).
  assert (Hdf : map fst df = map fst burn) by (unfold df; rewrite map_map; reflexivity).
  assert (Hdfin : forall k v, (k, v) ∈ burn -> (k, default 0 v) ∈ df)
    by (intros k v H; unfold df; apply elem_of_map_iff; exists (k, v); auto).
  destruct src as [c|cash].
  - split.
    + intros k. rewrite map_map. cbn [fst]. rewrite <- Hdf. unfold df.
      rewrite !map_map. cbn [fst]. split; [intros H; left; exact H|intros [H|[]]; exact H].
    + intros k cv rw Hin. apply elem_of_map_iff in Hin as ([k' b] & Heq & Hin).
      cbn [fst snd] in Heq. injection Heq as <- -> ->.
      unfold df in Hin. apply elem_of_map_iff in Hin as ([k' v'] & Heq & Hin).
      cbn [fst snd] in Heq. injection Heq as <- ->.
      split; [|split; [|reflexivity]].
      * intros v Hv. rewrite (fst_unique burn k v v' Hnd Hv Hin). apply runway_cell_spec.
      * intros Hk. exfalso. apply Hk. apply elem_of_map_iff. exists (k, v'). auto.
  - assert (HB : NoDup (keys (of_series "burn_rate" df)))
      by (rewrite keys_of_series, Hdf; exact Hnd).
    assert (HC : NoDup (keys (group_last cash)))
      by (rewrite keys_group_last; apply group_keys_NoDup).
    rewrite merge_rows by assumption. rewrite keys_of_series, keys_group_last, Hdf.
    split.
    + intros k. rewrite !map_map. cbn [fst]. rewrite map_id, group_keys_elem, elem_of_app.
      rewrite group_keys_elem. reflexivity.
    + intros k cv rw Hin. rewrite map_map in Hin.
      apply elem_of_map_iff in Hin as (k0 & Heq & _).
      rewrite row_of_group_last in Heq. cbv zeta in Heq.
      set (lv := last_valid (map snd (filter (fun r => fst r = k0) cash))) in Heq.
      destruct (decide (k0 ∈ map fst burn)) as [Hk|Hk].
      * apply elem_of_map_iff in Hk as ([k' v'] & Ek & Hk). cbn [fst] in Ek. subst k'.
        rewrite (row_of_series_in "burn_rate" df k0 (default 0 v')) in Heq;
          [|rewrite Hdf; exact Hnd|apply Hdfin; exact Hk].
        cbn in Heq. injection Heq as <- -> ->.
        split; [|split; [|reflexivity]].
        -- intros v Hv. rewrite (fst_unique burn k v v' Hnd Hv Hk). apply runway_cell_spec.
        -- intros Hk'. exfalso. apply Hk'. apply elem_of_map_iff. exists (k, v'). auto.
      * rewrite (row_of_series_out "burn_rate" df k0) in Heq by (rewrite Hdf; exact Hk).
        cbn in Heq. injection Heq as <- -> ->.
        split; [|split; [reflexivity|reflexivity]].
        intros v Hv. exfalso. apply Hk. apply elem_of_map_iff. exists (k, v). auto.
Qed.

(** Witness for C6: burn 0 in month 1 and -3 in month 2, cash for months 2
    and 4. *)
Lemma runway_null_when_no_burn_witness :
  let burn := [(1%nat, Some 0); (2%nat, Some (-3))] in
  let src := CashFrame [(2%nat, Some 10); (4%nat, Some 5)] in
  calculate_runway burn src =
    [(1%nat, 0, None); (2%nat, 10, Some (-333 # 100)); (4%nat, 5, None)] /\
  (forall k, k ∈ map (fun x => fst (fst x)) (calculate_runway burn src) <->
     k ∈ map fst burn \/ k ∈ [2%nat; 4%nat]).
Proof.
  intros burn src. split; [vm_compute; reflexivity|].
  refine (proj1 (runway_null_when_no_burn burn src _)).
  apply (bool_decide_unpack _). vm_compute. reflexivity.
Defined.

End RunwayProofs.

(** ** MRR movements *)
Module MrrProofs.
Import Mrr.

Lemma qsum_nonneg (l : list Q) : Forall (fun x => 0 <= x) l -> 0 <= qsum l.
Proof.
  induction 1 as [|x l Hx _ IH]; simpl; [apply Qle_refl|].
  apply (Qplus_le_compat 0 x 0 (qsum l)) in Hx; [|exact IH]. exact Hx.
Qed.

Lemma abs_cell_nonneg (x : option Q) : 0 <= default 0 (option_map Qabs x).
Proof. destruct x as [q|]; simpl; [apply Qabs_nonneg|apply Qle_refl]. Qed.

Lemma group_sum_abs_nonneg {A} (key : A -> Month) (f : A -> option Q) (xs : list A) m v :
  (m, v) ∈ group_sum key (fun r => default 0 (option_map Qabs (f r))) xs -> 0 <= v.
Proof.
  intros Hin. apply group_sum_elem in Hin as ->. apply qsum_nonneg.
  apply Forall_forall. intros x Hx. apply elem_of_map_iff in Hx as (r & -> & _).
  apply abs_cell_nonneg.
Qed.

Lemma group_keys_const (ks : list Month) (m : Month) :
  m ∈ ks -> (forall k, k ∈ ks -> k = m) -> group_keys ks = [m].
Proof.
  intros Hm Hall. pose proof (group_keys_NoDup ks) as Hnd.
  assert (Hg : forall k, k ∈ group_keys ks <-> k ∈ ks) by (intros k; apply group_keys_elem).
  destruct (group_keys ks) as [|a [|b t]].
  - apply Hg in Hm. inversion Hm.
  - f_equal. apply Hall, Hg. apply elem_of_cons. left. reflexivity.
  - exfalso. apply NoDup_cons in Hnd as [Hab _]. apply Hab.
    rewrite (Hall a), (Hall b); [apply elem_of_cons; left; reflexivity| |].
    + apply Hg. apply elem_of_cons. right. apply elem_of_cons. left. reflexivity.
    + apply Hg. apply elem_of_cons. left. reflexivity.
Qed.

(** Rows all of one month group into that single month. *)
Lemma group_sum_const {A} (key : A -> Month) (val : A -> Q) (xs : list A) (m : Month) :
  xs <> [] -> Forall (fun x => key x = m) xs ->
  group_sum key val xs = [(m, qsum (map val xs))].
Proof.
  intros Hne Hall. unfold group_sum.
  rewrite (group_keys_const _ m).
  - assert (Hf : filter (fun x => key x = m) xs = xs).
    { clear Hne. induction Hall as [|x xs Hx _ IH]; [reflexivity|].
      rewrite filter_cons, decide_True by exact Hx. rewrite IH. reflexivity. }
    cbn [map]. rewrite Hf. reflexivity.
  - destruct xs as [|x xs]; [contradiction|]. apply Forall_cons in Hall as [Hx _].
    apply elem_of_map_iff. exists x. split; [symmetry; exact Hx|apply elem_of_cons; left; reflexivity].
  - intros k Hk. apply elem_of_map_iff in Hk as (x & -> & Hx).
    rewrite Forall_forall in Hall. apply Hall, Hx.
Qed.

(** C7: every monthly [churned_mrr] and [contraction_mrr] total is the sum
    of the absolute values of the month's [mrr-churn] / [mrr-contraction]
    cells (NaN skipped), hence non-negative; on two rows of one month (e.g.
    2024-03) with [mrr-new-business] 100 and 50 and [mrr-churn] -20 and 0,
    the aggregators give [new_mrr = 150] and [churned_mrr = 20]. *)
Theorem churn_contraction_abs_nonneg (rs : list MrrComponent) :
  (forall m v, (m, v) ∈ calculate_churned_mrr rs ->
     v = qsum (map (fun r => default 0 (option_map Qabs (mrr_churn r)))
                (filter (fun r => mc_month r = m) rs)) /\ 0 <= v) /\
  (forall m v, (m, v) ∈ calculate_contraction_mrr rs ->
     v = qsum (map (fun r => default 0 (option_map Qabs (mrr_contraction r)))
                (filter (fun r => mc_month r = m) rs)) /\ 0 <= v) /\
  (forall m : Month,
   let ex := [mkMrrComponent m (Some 100) (Some (-20)) None;
              mkMrrComponent m (Some 50) (Some 0) None] in
   calculate_new_mrr ex = [(m, 150)] /\
   calculate_churned_mrr ex = [(m, 20)]).
Proof.
  split; [|split].
  - intros m v Hin. split; [apply group_sum_elem in Hin; exact Hin|].
    exact (group_sum_abs_nonneg _ _ _ _ _ Hin).
  - intros m v Hin. split; [apply group_sum_elem in Hin; exact Hin|].
    exact (group_sum_abs_nonneg _ _ _ _ _ Hin).
  - intros m ex. unfold calculate_new_mrr, calculate_churned_mrr.
    rewrite !(group_sum_const _ _ ex m) by (first [discriminate | repeat constructor]).
    split; reflexivity.
Qed.

End MrrProofs.

(** ** Writes into the shared contacts table *)
Module PurityProofs.
Import Costs CostsProofs.

Lemma calculate_cac_store (st : Store) (cus : list Customer) :
  fst (calculate_cac st cus) = fst (tagged_cost "cac" st).
Proof. unfold calculate_cac. destruct (tagged_cost "cac" st). reflexivity. Qed.

(** C10: [calculate_cac], [calculate_opex], [calculate_cogs] and
    [calculate_financial_costs] each hand back the contacts table with every
    null [tags] / [type] replaced by "": the caller's [df_contacts] is
    written by four calculators. On a table with one contact whose tags are
    null, each of them changes it. *)
Theorem contacts_written_by_tag_calculators :
  (forall st cus, contacts (fst (calculate_cac st cus)) = map clean_contact (contacts st)) /\
  (forall st, contacts (fst (calculate_opex st)) = map clean_contact (contacts st)) /\
  (forall st, contacts (fst (calculate_cogs st)) = map clean_contact (contacts st)) /\
  (forall st, contacts (fst (calculate_financial_costs st)) = map clean_contact (contacts st)) /\
  (let st0 := mkStore [mkContact "c1" None (Some "supplier")] [] in
   let cleaned := [mkContact "c1" (Some "") (Some "supplier")] in
   contacts st0 = [mkContact "c1" None (Some "supplier")] /\
   contacts (fst (calculate_cac st0 [])) = cleaned /\
   contacts (fst (calculate_opex st0)) = cleaned /\
   contacts (fst (calculate_cogs st0)) = cleaned /\
   contacts (fst (calculate_financial_costs st0)) = cleaned).
Proof.
  split; [intros st cus; rewrite calculate_cac_store; reflexivity|].
  split; [reflexivity|]. split; [reflexivity|]. split; [reflexivity|].
  repeat split.
Qed.

End PurityProofs.

(** ** Shared lemmas for the remaining calculators *)
Module ExtraLemmas.
Import Frame FrameProofs FinalMergeProofs CacProofs EbitdaProofs Runway.

Lemma qsum_map_ext {A} (f g : A -> Q) (l : list A) :
  (forall x, x ∈ l -> f x == g x) -> qsum (map f l) == qsum (map g l).
Proof.
  induction l as [|x l IH]; intros H; simpl; [reflexivity|].
  rewrite (H x) by (apply elem_of_cons; left; reflexivity).
  rewrite IH by (intros y Hy; apply H; apply elem_of_cons; right; exact Hy).
  reflexivity.
Qed.

Lemma qsum_map_add {A} (f g : A -> Q) (l : list A) :
  qsum (map (fun x => f x + g x) l) == qsum (map f l) + qsum (map g l).
Proof. induction l as [|x l IH]; simpl; [ring|]. rewrite IH. ring. Qed.

Lemma qsum_map_scale {A} (f : A -> Q) (c : Q) (l : list A) :
  qsum (map (fun x => f x * c) l) == c * qsum (map f l).
Proof. induction l as [|x l IH]; simpl; [ring|]. rewrite IH. ring. Qed.

Lemma qsum_map_zero {A} (l : list A) : qsum (map (fun _ => 0) l) == 0.
Proof. induction l as [|x l IH]; simpl; [reflexivity|]. rewrite IH. ring. Qed.

Lemma qsum_indicator_absent (k0 : Month) (v : Q) (ks : list Month) :
  k0 ∉ ks -> qsum (map (fun m => if decide (k0 = m) then v else 0) ks) == 0.
Proof.
  induction ks as [|k ks IH]; intros Hk; simpl; [reflexivity|].
  apply not_elem_of_cons in Hk as [Hne Hk].
  destruct (decide (k0 = k)) as [->|_]; [congruence|]. rewrite IH by exact Hk. ring.
Qed.

Lemma qsum_indicator (k0 : Month) (v : Q) (ks : list Month) :
  NoDup ks -> k0 ∈ ks ->
  qsum (map (fun m => if decide (k0 = m) then v else 0) ks) == v.
Proof.
  induction ks as [|k ks IH]; intros Hnd Hin; [inversion Hin|].
  apply NoDup_cons in Hnd as [Hk Hnd]. simpl.
  destruct (decide (k0 = k)) as [->|Hne].
  - rewrite qsum_indicator_absent by exact Hk. ring.
  - apply elem_of_cons in Hin as [Hin|Hin]; [congruence|].
    rewrite IH by assumption. ring.
Qed.

(** The monthly sums of a [groupby] add up to the sum over all rows. *)
Lemma group_sum_total_aux {A} (key : A -> Month) (val : A -> Q) (xs : list A)
    (ks : list Month) :
  NoDup ks -> (forall x, x ∈ xs -> key x ∈ ks) ->
  qsum (map (fun m => qsum (map val (filter (fun x => key x = m) xs))) ks) ==
  qsum (map val xs).
Proof.
  intros Hnd. induction xs as [|x xs IH]; intros Hk.
  - simpl. apply qsum_map_zero.
  - rewrite (qsum_map_ext _ (fun m => (if decide (key x = m) then val x else 0) +
                                      qsum (map val (filter (fun y => key y = m) xs)))).
    + rewrite qsum_map_add, qsum_indicator, IH.
      * simpl. reflexivity.
      * intros y Hy. apply Hk. apply elem_of_cons. right. exact Hy.
      * exact Hnd.
      * apply Hk. apply elem_of_cons. left. reflexivity.
    + intros m _. rewrite filter_cons. destruct (decide (key x = m)); simpl; ring.
Qed.

Lemma group_sum_total {A} (key : A -> Month) (val : A -> Q) (xs : list A) :
  qsum (map snd (group_sum key val xs)) == qsum (map val xs).
Proof.
  unfold group_sum. rewrite map_map. cbn [snd].
  apply group_sum_total_aux; [apply group_keys_NoDup|].
  intros x Hx. apply group_keys_elem, elem_of_map_iff. eauto.
Qed.

Lemma group_sum_in {A} (key : A -> Month) (val : A -> Q) (xs : list A) (m : Month) :
  m ∈ map key xs ->
  (m, qsum (map val (filter (fun x => key x = m) xs))) ∈ group_sum key val xs.
Proof.
  intros H. unfold group_sum. apply elem_of_map_iff. exists m.
  split; [reflexivity|]. apply group_keys_elem. exact H.
Qed.

Lemma filter_key_map {A B} (f : A -> B) (key : B -> Month) (m : Month) (l : list A) :
  filter (fun x => key x = m) (map f l) = map f (filter (fun y => key (f y) = m) l).
Proof.
  induction l as [|y l IH]; [reflexivity|]. simpl. rewrite !filter_cons.
  destruct (decide (key (f y) = m)); simpl; rewrite IH; reflexivity.
Qed.

Lemma filter_all_false {A} (P : A -> Prop) `{forall x, Decision (P x)} (l : list A) :
  (forall x, x ∈ l -> ~ P x) -> filter P l = [].
Proof.
  induction l as [|x l IH]; intros H0; [reflexivity|]. rewrite filter_cons.
  rewrite decide_False by (apply H0; apply elem_of_cons; left; reflexivity).
  apply IH. intros y Hy. apply H0. apply elem_of_cons. right. exact Hy.
Qed.

(** [round(2)] depends on the value only, not on its representation. *)
Lemma round2_Qeq (x y : Q) : x == y -> round2 x = round2 y.
Proof.
  intros H. unfold round2. cbv zeta.
  assert (Hf : Qfloor (x * 100) = Qfloor (y * 100))
    by (apply Qfloor_comp; rewrite H; reflexivity).
  rewrite Hf.
  assert (Hd : x * 100 - inject_Z (Qfloor (y * 100)) ==
               y * 100 - inject_Z (Qfloor (y * 100))) by (rewrite H; reflexivity).
  assert (E1 : Qle_bool (1 # 2) (x * 100 - inject_Z (Qfloor (y * 100))) =
               Qle_bool (1 # 2) (y * 100 - inject_Z (Qfloor (y * 100)))).
  { apply eq_true_iff_eq. rewrite !Qle_bool_iff, Hd. reflexivity. }
  assert (E2 : Qle_bool (x * 100 - inject_Z (Qfloor (y * 100))) (1 # 2) =
               Qle_bool (y * 100 - inject_Z (Qfloor (y * 100))) (1 # 2)).
  { apply eq_true_iff_eq. rewrite !Qle_bool_iff, Hd. reflexivity. }
  rewrite E1, E2. reflexivity.
Qed.

Lemma round2_nonneg (x : Q) : 0 <= x -> 0 <= round2 x.
Proof.
  intros H. unfold round2. cbv zeta.
  assert (Hf : (0 <= Qfloor (x * 100))%Z).
  { change 0%Z with (Qfloor 0). apply Qfloor_resp_le. lra. }
  set (f := Qfloor (x * 100)) in *.
  assert (Hr : forall r : Z, (0 <= r)%Z -> 0 <= inject_Z r / 100).
  { intros r Hr. apply Qle_shift_div_l; [reflexivity|].
    unfold Qle. simpl. lia. }
  destruct (negb _); [apply Hr; exact Hf|].
  destruct (negb _); [apply Hr; lia|].
  destruct (Z.even f); apply Hr; lia.
Qed.

(** Any row of an outer merge: the cells of a left row of the month (or the
    left NaN cells) followed by those of a right row of the month (or the
    right NaN cells). *)
Lemma merge_outer_row_cases (l r : Frame) (k : Month) (a : list (string * option Q)) :
  (k, a) ∈ rows (merge_outer l r) ->
  exists la ra, a = la ++ ra /\
    (la = null_row (cols l) \/ (k, la) ∈ rows l) /\
    (ra = null_row (cols r) \/ (k, ra) ∈ rows r).
Proof.
  unfold merge_outer. cbn [rows cols]. intros H.
  apply list_elem_of_In, in_flat_map in H as (k' & _ & H).
  apply list_elem_of_In in H.
  assert (Hl : forall x, x ∈ rows_at l k' -> x = (k', snd x) /\ x ∈ rows l).
  { intros [k0 b] Hx. unfold rows_at in Hx.
    apply list_elem_of_filter in Hx as [E Hx]. simpl in E. subst k0. auto. }
  assert (Hr : forall y, y ∈ rows_at r k' -> y = (k', snd y) /\ y ∈ rows r).
  { intros [k0 b] Hy. unfold rows_at in Hy.
    apply list_elem_of_filter in Hy as [E Hy]. simpl in E. subst k0. auto. }
  revert H Hl Hr.
  destruct (rows_at l k') as [|x xs]; destruct (rows_at r k') as [|y ys];
    intros H Hl Hr.
  - inversion H.
  - apply elem_of_map_iff in H as (y0 & Heq & Hy0). injection Heq as -> ->.
    exists (null_row (cols l)), (snd y0). split; [reflexivity|].
    split; [left; reflexivity|]. right.
    destruct (Hr y0 Hy0) as [E Hin]. rewrite <- E. exact Hin.
  - apply elem_of_map_iff in H as (x0 & Heq & Hx0). injection Heq as -> ->.
    exists (snd x0), (null_row (cols r)). split; [reflexivity|].
    split; [|left; reflexivity]. right.
    destruct (Hl x0 Hx0) as [E Hin]. rewrite <- E. exact Hin.
  - apply list_elem_of_In, in_flat_map in H as (x0 & Hx0 & H).
    apply list_elem_of_In in Hx0, H.
    apply elem_of_map_iff in H as (y0 & Heq & Hy0). injection Heq as -> ->.
    exists (snd x0), (snd y0). split; [reflexivity|].
    destruct (Hl x0 Hx0) as [E1 Hin1]. destruct (Hr y0 Hy0) as [E2 Hin2].
    split; right; [rewrite <- E1|rewrite <- E2]; assumption.
Qed.

Lemma select_row_dom (cs : list string) (f : Frame) (k : Month) (a : list (string * option Q)) :
  (k, a) ∈ rows (select cs f) -> map fst a = cs.
Proof.
  unfold select. cbn [rows]. intros H.
  apply elem_of_map_iff in H as (r & Heq & _). injection Heq as _ ->.
  rewrite map_map. apply map_id.
Qed.

Lemma fill_row_app (a b : list (string * option Q)) :
  fill_row (a ++ b) = fill_row a ++ fill_row b.
Proof. unfold fill_row. apply map_app. Qed.

(** A lookup in [la ++ ra] for a column that [la] lacks goes to [ra]. *)
Lemma col_lookup_fill_skip (c : string) (la ra : list (string * option Q)) :
  c ∉ map fst la -> col_lookup c (fill_row (la ++ ra)) = col_lookup c (fill_row ra).
Proof.
  intros Hc. rewrite fill_row_app, col_lookup_app.
  assert (E : col_lookup c (fill_row la) = None).
  { apply col_lookup_None. unfold fill_row. rewrite map_map. exact Hc. }
  rewrite E. reflexivity.
Qed.

(** In the zero-filled merge of two one-column tables, each column holds its
    table's value at the month, or 0. *)
Lemma merged_pair_value (l r : Frame) (cl cr : string) (k : Month) :
  WF l -> WF r -> cols l = [cl] -> cols r = [cr] -> cl <> cr ->
  default 0 (col_lookup cl (fill_row (row_of l k ++ row_of r k))) = default 0 (cell l k cl) /\
  default 0 (col_lookup cr (fill_row (row_of l k ++ row_of r k))) = default 0 (cell r k cr).
Proof.
  intros Hl Hr Cl Cr Hne.
  pose proof (row_of_dom l k Hl) as D1. pose proof (row_of_dom r k Hr) as D2.
  rewrite Cl in D1. rewrite Cr in D2. unfold cell.
  destruct (row_of l k) as [|[c1 o1] [|? ?]]; simpl in D1; try discriminate.
  injection D1 as ->.
  destruct (row_of r k) as [|[c2 o2] [|? ?]]; simpl in D2; try discriminate.
  injection D2 as ->. simpl. rewrite !String.eqb_refl.
  destruct (String.eqb_spec cr cl) as [E|_]; [congruence|]. simpl.
  split; reflexivity.
Qed.

(** The zero-filled value of a grouped sum read back from its table. *)
Lemma cell_series_group {A} (c : string) (key : A -> Month) (val : A -> Q) (ys : list A)
    (k : Month) :
  default 0 (cell (of_series c (group_sum key val ys)) k c) =
  qsum (map val (filter (fun y => key y = k) ys)).
Proof.
  set (xs := group_sum key val ys).
  assert (Hnd : NoDup (map fst xs)) by apply group_sum_keys_spec.
  unfold cell. destruct (decide (k ∈ map fst xs)) as [Hk|Hk].
  - apply elem_of_map_iff in Hk as ([k' v] & Ek & Hk). simpl in Ek. subst k'.
    rewrite (row_of_series_in c xs k v Hnd Hk). simpl. rewrite String.eqb_refl. simpl.
    apply group_sum_elem in Hk. exact Hk.
  - rewrite (row_of_series_out c xs k Hk). simpl. rewrite String.eqb_refl. simpl.
    apply group_sum_absent in Hk. rewrite Hk. reflexivity.
Qed.

Lemma last_valid_nonneg (xs : list (option Q)) :
  Forall (fun o => forall v, o = Some v -> 0 <= v) xs ->
  forall v, last_valid xs = Some v -> 0 <= v.
Proof.
  unfold last_valid. intros H.
  assert (G : forall acc, (forall v, acc = Some v -> 0 <= v) ->
            forall v, fold_left (fun acc x => match x with Some v => Some v | None => acc end)
                        xs acc = Some v -> 0 <= v).
  { induction H as [|x xs Hx _ IH]; intros acc Hacc; simpl; [exact Hacc|].
    apply IH. destruct x as [q|]; [exact Hx|exact Hacc]. }
  apply G. discriminate.
Qed.

Lemma sorted_last_max (l : list Month) (m : Month) :
  StronglySorted le l -> last l = Some m -> forall x, x ∈ l -> (x <= m)%nat.
Proof.
  induction 1 as [|a l Hs IH Ha]; intros Hlast x Hx; [inversion Hx|].
  destruct l as [|b l].
  - simpl in Hlast. injection Hlast as ->. apply list_elem_of_singleton in Hx. lia.
  - assert (Hm : m ∈ b :: l).
    { apply last_Some_elem_of. exact Hlast. }
    apply elem_of_cons in Hx as [->|Hx].
    + rewrite Forall_forall in Ha. apply Ha. exact Hm.
    + apply IH; [exact Hlast|exact Hx].
Qed.

End ExtraLemmas.

Module ChecksProofs.
Import Ledger Checks ExtraLemmas.

Lemma validate_columns_cases (df_columns required : list string) (df_name : string) :
  let missing := filter (fun col => col ∉ df_columns) required in
  (missing = [] /\ validate_columns df_columns required df_name = inr tt) \/
  (missing <> [] /\ validate_columns df_columns required df_name =
     inl (ValueError (df_name ++ " is missing columns: " ++ py_list_repr missing))).
Proof.
  cbv zeta. unfold validate_columns.
  destruct (filter _ required) as [|c l]; [left; auto|right; split; [discriminate|reflexivity]].
Qed.

Lemma missing_nil_iff (df_columns required : list string) :
  filter (fun col => col ∉ df_columns) required = [] <->
  forall c, c ∈ required -> c ∈ df_columns.
Proof.
  split.
  - intros H c Hc. destruct (decide (c ∈ df_columns)) as [?|Hn]; [assumption|].
    exfalso. exact (filter_nil_not_elem_of _ _ _ H Hn Hc).
  - intros H. apply filter_all_false. intros c Hc Hn. apply Hn, H, Hc.
Qed.

(** X1. [validate_columns] returns normally exactly when every required
    column is present; otherwise it raises [ValueError] naming the missing
    columns: the required ones absent from the table, in the order given. *)
Theorem validate_columns_spec (df_columns required : list string) (df_name : string) :
  (validate_columns df_columns required df_name = inr tt <->
     forall c, c ∈ required -> c ∈ df_columns) /\
  (forall e, validate_columns df_columns required df_name = inl e ->
     exists missing,
       e = ValueError (df_name ++ " is missing columns: " ++ py_list_repr missing) /\
       missing <> [] /\ missing `sublist_of` required /\
       (forall c, c ∈ missing <-> c ∈ required /\ c ∉ df_columns)).
Proof.
  destruct (validate_columns_cases df_columns required df_name) as [[Hm Hv]|[Hm Hv]];
    rewrite Hv.
  - split.
    + split; [intros _|reflexivity]. apply missing_nil_iff. exact Hm.
    + intros e He. discriminate He.
  - split.
    + split; [intros H; discriminate H|].
      intros H. exfalso. apply Hm. apply missing_nil_iff. exact H.
    + intros e He. injection He as <-.
      eexists. split; [reflexivity|]. split; [exact Hm|]. split; [apply sublist_filter|].
      intros c. rewrite list_elem_of_filter. tauto.
Qed.

End ChecksProofs.

Module CmMetricsProofs.
Import Ledger Frame Checks CmMetrics ChecksProofs ExtraLemmas CashProofs.

Lemma extract_metric_spec (col : string) (df : CmTable) :
  let missing := filter (fun c => c ∉ cm_columns df) ["month_start"; col] in
  (~ ("month_start" ∈ cm_columns df /\ col ∈ cm_columns df) ->
     extract_metric col df =
       inl (ValueError ("ChartMogul Metrics is missing columns: " ++ py_list_repr missing))) /\
  ("month_start" ∈ cm_columns df -> col ∈ cm_columns df ->
     exists t, extract_metric col df = inr t /\ cols t = [col] /\
       keys t = map fst (cm_rows df) /\
       (forall i k a, cm_rows df !! i = Some (k, a) ->
          rows t !! i = Some (k, [(col, match col_lookup col a with
                                        | Some v => v
                                        | None => None
                                        end)])) /\
       (NoDup (map fst (cm_rows df)) -> WF t)).
Proof.
  cbv zeta. unfold extract_metric.
  destruct (validate_columns_cases (cm_columns df) ["month_start"; col] "ChartMogul Metrics")
    as [[Hm Hv]|[Hm Hv]]; rewrite Hv.
  - split.
    + intros Hn. exfalso. apply Hn. rewrite missing_nil_iff in Hm.
      split; apply Hm; [left|right; left].
    + intros _ _. eexists. split; [reflexivity|]. split; [reflexivity|].
      split; [unfold keys; cbn [rows]; rewrite map_map; reflexivity|].
      split.
      * intros i k a Hi. cbn [rows]. rewrite lookup_map, Hi. reflexivity.
      * intros Hnd. split.
        -- unfold keys. cbn [rows]. rewrite map_map. exact Hnd.
        -- intros r Hr. cbn [rows] in Hr. apply elem_of_map_iff in Hr as (x & -> & _).
           reflexivity.
  - split; [intros _; reflexivity|].
    intros H1 H2. exfalso. apply Hm. apply missing_nil_iff.
    intros c Hc. apply elem_of_cons in Hc as [->|Hc]; [exact H1|].
    apply list_elem_of_singleton in Hc. subst c. exact H2.
Qed.

(** X2. Each of the five ChartMogul extractors ([calculate_arpa],
    [calculate_customers], [calculate_customer_churn_rate],
    [calculate_revenue_churn_rate], [calculate_ltv]) raises [ValueError]
    naming the missing columns unless both [month_start] and its metric
    column are in the table; otherwise it returns one row per input row, in
    order, with the row's month and its metric cell, without grouping or
    removing duplicate months. *)
Theorem chartmogul_extractors_spec (df : CmTable) :
  Forall (fun p : (CmTable -> Error + Frame) * string =>
    let calc := fst p in
    let col := snd p in
    (~ ("month_start" ∈ cm_columns df /\ col ∈ cm_columns df) ->
       calc df = inl (ValueError ("ChartMogul Metrics is missing columns: " ++
                        py_list_repr (filter (fun c => c ∉ cm_columns df) ["month_start"; col])))) /\
    ("month_start" ∈ cm_columns df -> col ∈ cm_columns df ->
       exists t, calc df = inr t /\ cols t = [col] /\
         keys t = map fst (cm_rows df) /\
         (forall i k a, cm_rows df !! i = Some (k, a) ->
            rows t !! i = Some (k, [(col, match col_lookup col a with
                                          | Some v => v
                                          | None => None
                                          end)])) /\
         (NoDup (map fst (cm_rows df)) -> WF t)))
  [(calculate_arpa, "arpa"); (calculate_customers, "customers");
   (calculate_customer_churn_rate, "customer-churn-rate");
   (calculate_revenue_churn_rate, "mrr-churn-rate"); (calculate_ltv, "ltv")].
Proof.
  repeat constructor; cbn [fst snd];
    first [apply (extract_metric_spec _ df)|
           intros; apply (extract_metric_spec _ df); assumption].
Qed.

End CmMetricsProofs.

Module MrrTableProofs.
Import Mrr MrrTable ExtraLemmas MrrProofs.

(** X3. [calculate_mrr] and [calculate_arr] have one row per month of the
    components table, ascending; a month's MRR is the sum of its [mrr]
    cells (NaN counted as 0), its ARR is 12 times that, and the monthly
    values add up to the sum of all [mrr] cells (times 12 for ARR). *)
Theorem mrr_arr_spec (rs : list McRow) :
  map fst (calculate_arr rs) = map fst (calculate_mrr rs) /\
  NoDup (map fst (calculate_mrr rs)) /\ StronglySorted le (map fst (calculate_mrr rs)) /\
  (forall m, m ∈ map fst (calculate_mrr rs) <-> exists r, r ∈ rs /\ r_month r = m) /\
  (forall m v, (m, v) ∈ calculate_mrr rs ->
     v = qsum (map (fun r => default 0 (r_mrr r)) (filter (fun r => r_month r = m) rs))) /\
  (forall m v, (m, v) ∈ calculate_arr rs ->
     v = qsum (map (fun r => default 0 (r_mrr r)) (filter (fun r => r_month r = m) rs)) * 12) /\
  qsum (map snd (calculate_mrr rs)) == qsum (map (fun r => default 0 (r_mrr r)) rs) /\
  qsum (map snd (calculate_arr rs)) == 12 * qsum (map (fun r => default 0 (r_mrr r)) rs).
Proof.
  unfold calculate_arr, calculate_mrr.
  set (g := group_sum r_month (fun r => default 0 (r_mrr r)) rs).
  destruct (group_sum_keys_spec r_month (fun r => default 0 (r_mrr r)) rs) as (Hnd & Hs & Hin).
  fold g in Hnd, Hs, Hin.
  split; [rewrite map_map; reflexivity|].
  split; [exact Hnd|]. split; [exact Hs|]. split; [exact Hin|].
  split; [intros m v Hv; apply group_sum_elem in Hv; exact Hv|].
  split.
  - intros m v Hv. apply elem_of_map_iff in Hv as ([m' w] & Heq & Hw).
    injection Heq as -> ->. apply group_sum_elem in Hw. cbn [snd]. rewrite Hw. reflexivity.
  - split; [apply group_sum_total|].
    rewrite map_map. cbn [snd].
    rewrite (qsum_map_scale snd 12 g). unfold g. rewrite group_sum_total. reflexivity.
Qed.

End MrrTableProofs.

Module NetNewProofs.
Import Mrr MrrTable ExtraLemmas MrrProofs CashProofs.

Lemma qsum_map_le {A} (f g : A -> Q) (l : list A) :
  (forall x, x ∈ l -> f x <= g x) -> qsum (map f l) <= qsum (map g l).
Proof.
  induction l as [|x l IH]; intros H; simpl; [apply Qle_refl|].
  apply Qplus_le_compat.
  - apply H. apply elem_of_cons. left. reflexivity.
  - apply IH. intros y Hy. apply H. apply elem_of_cons. right. exact Hy.
Qed.

Lemma filter_components (rs : list McRow) (m : Month) :
  filter (fun x => mc_month x = m) (map to_component rs) =
  map to_component (filter (fun r => r_month r = m) rs).
Proof. exact (filter_key_map to_component mc_month m rs). Qed.

(** X4. [calculate_net_new_mrr] has the same months, in the same order, as
    [calculate_new_mrr], [calculate_expansion_mrr],
    [calculate_contraction_mrr] and [calculate_churned_mrr] on the same
    table. In each month its value is at most new + expansion - contraction
    - churned as those four calculators report them, and equal to it when no
    expansion cell is negative: only [calculate_expansion_mrr] takes the
    absolute value of the expansion column. *)
Theorem net_new_mrr_composition (rs : list McRow) :
  let cs := map to_component rs in
  map fst (calculate_net_new_mrr rs) = map fst (calculate_new_mrr cs) /\
  map fst (calculate_expansion_mrr rs) = map fst (calculate_new_mrr cs) /\
  map fst (calculate_contraction_mrr cs) = map fst (calculate_new_mrr cs) /\
  map fst (calculate_churned_mrr cs) = map fst (calculate_new_mrr cs) /\
  (forall i m v, calculate_net_new_mrr rs !! i = Some (m, v) ->
     exists n x c ch,
       calculate_new_mrr cs !! i = Some (m, n) /\
       calculate_expansion_mrr rs !! i = Some (m, x) /\
       calculate_contraction_mrr cs !! i = Some (m, c) /\
       calculate_churned_mrr cs !! i = Some (m, ch) /\
       v <= n + x - c - ch /\
       ((forall r y, r ∈ rs -> r_expansion r = Some y -> 0 <= y) -> v == n + x - c - ch)).
Proof.
  cbv zeta. unfold calculate_net_new_mrr, calculate_expansion_mrr, calculate_new_mrr,
    calculate_contraction_mrr, calculate_churned_mrr, group_sum.
  split; [rewrite !map_map; reflexivity|].
  split; [rewrite !map_map; reflexivity|].
  split; [rewrite !map_map; reflexivity|].
  split; [rewrite !map_map; reflexivity|].
  intros i m v H. rewrite lookup_map in H.
  destruct (group_keys (map r_month rs) !! i) as [m'|] eqn:EK; [|discriminate H].
  injection H as -> <-.
  assert (EK' : group_keys (map mc_month (map to_component rs)) !! i = Some m).
  { rewrite map_map. exact EK. }
  rewrite !lookup_map, EK, EK'. cbn [fmap option_fmap option_map].
  rewrite !filter_components, !map_map. cbn [mrr_new_business mrr_churn mrr_contraction to_component].
  do 4 eexists. split; [reflexivity|]. split; [reflexivity|].
  split; [reflexivity|]. split; [reflexivity|].
  set (fs := filter (fun r => r_month r = m) rs).
  split.
  - assert (Hle : qsum (map (fun r => default 0 (r_expansion r)) fs) <=
                  qsum (map (fun r => default 0 (option_map Qabs (r_expansion r))) fs)).
    { apply qsum_map_le. intros r _. destruct (r_expansion r) as [y|]; simpl;
        [apply Qle_Qabs|apply Qle_refl]. }
    lra.
  - intros Hpos.
    assert (Heq : qsum (map (fun r => default 0 (r_expansion r)) fs) ==
                  qsum (map (fun r => default 0 (option_map Qabs (r_expansion r))) fs)).
    { apply qsum_map_ext. intros r Hr. unfold fs in Hr.
      apply list_elem_of_filter in Hr as [_ Hr].
      destruct (r_expansion r) as [y|] eqn:Ey; simpl; [|reflexivity].
      rewrite Qabs_pos; [reflexivity|]. exact (Hpos r y Hr Ey). }
    rewrite Heq. reflexivity.
Qed.

End NetNewProofs.

Module NetBurnProofs.
Import Frame Costs MrrTable NetBurn FrameProofs FinalMergeProofs CacProofs CashProofs ExtraLemmas.

Lemma net_burn_eq (ps : list Purchase) (rs : list McRow) :
  let conf := filter (fun p => p_status p = 1%Z) ps in
  let cost k := qsum (map (fun p => default 0 (p_total_eur p))
                          (filter (fun p => p_month p = k) conf)) in
  let rev k := qsum (map (fun r => default 0 (r_mrr r)) (filter (fun r => r_month r = k) rs)) in
  calculate_net_burn ps rs =
  map (fun k => (k, cost k, cost k - rev k))
      (group_keys (map fst (group_sum p_month (fun p => default 0 (p_total_eur p)) conf) ++
                   map fst (group_sum r_month (fun r => default 0 (r_mrr r)) rs))).
Proof.
  cbv zeta. unfold calculate_net_burn.
  set (C := group_sum p_month (fun p => default 0 (p_total_eur p))
              (filter (fun p => p_status p = 1%Z) ps)).
  set (R := group_sum r_month (fun r => default 0 (r_mrr r)) rs).
  assert (HC : NoDup (map fst C)) by apply group_sum_keys_spec.
  assert (HR : NoDup (map fst R)) by apply group_sum_keys_spec.
  rewrite merge_rows by (rewrite keys_of_series; assumption).
  rewrite !keys_of_series, map_map. apply List.map_ext. intros k. cbn [fst snd].
  destruct (merged_pair_value (of_series "total_costs" C) (of_series "mrr" R)
              "total_costs" "mrr" k (WF_of_series _ _ HC) (WF_of_series _ _ HR)
              eq_refl eq_refl ltac:(discriminate)) as [E1 E2].
  rewrite E1, E2. unfold C, R. rewrite !cell_series_group. reflexivity.
Qed.

(** X5. [calculate_net_burn] has one row per month that has a confirmed
    purchase or an MRR component row, ascending. Its [total_costs] is the
    sum of [total_eur] over the confirmed purchases (status 1) of the month
    (0 when there are none), and [net_burn] is that minus the month's
    summed MRR. Over all rows, [total_costs] adds up to the confirmed
    purchase total and [net_burn] to that total minus the total MRR. *)
Theorem net_burn_spec (ps : list Purchase) (rs : list McRow) :
  let out := calculate_net_burn ps rs in
  let months := map (fun t => fst (fst t)) out in
  NoDup months /\ StronglySorted le months /\
  (forall k, k ∈ months <->
     (exists p, p ∈ ps /\ p_status p = 1%Z /\ p_month p = k) \/
     (exists r, r ∈ rs /\ r_month r = k)) /\
  (forall k tc nb, (k, tc, nb) ∈ out ->
     tc = qsum (map (fun p => default 0 (p_total_eur p))
                    (filter (fun p => p_month p = k /\ p_status p = 1%Z) ps)) /\
     nb = tc - qsum (map (fun r => default 0 (r_mrr r)) (filter (fun r => r_month r = k) rs))) /\
  qsum (map (fun t => snd (fst t)) out) ==
    qsum (map (fun p => default 0 (p_total_eur p)) (filter (fun p => p_status p = 1%Z) ps)) /\
  qsum (map snd out) ==
    qsum (map (fun p => default 0 (p_total_eur p)) (filter (fun p => p_status p = 1%Z) ps)) -
    qsum (map (fun r => default 0 (r_mrr r)) rs).
Proof.
  cbv zeta. rewrite net_burn_eq. cbv zeta.
  set (conf := filter (fun p => p_status p = 1%Z) ps).
  set (K := group_keys (map fst (group_sum p_month (fun p => default 0 (p_total_eur p)) conf) ++
                        map fst (group_sum r_month (fun r => default 0 (r_mrr r)) rs))).
  assert (HK : forall k, k ∈ K <->
     (exists p, p ∈ ps /\ p_status p = 1%Z /\ p_month p = k) \/
     (exists r, r ∈ rs /\ r_month r = k)).
  { intros k. unfold K. rewrite group_keys_elem, elem_of_app.
    destruct (group_sum_keys_spec p_month (fun p => default 0 (p_total_eur p)) conf)
      as (_ & _ & H1).
    destruct (group_sum_keys_spec r_month (fun r => default 0 (r_mrr r)) rs) as (_ & _ & H2).
    rewrite H1, H2. unfold conf. split.
    - intros [(p & Hp & E)|H]; [left|right; exact H].
      apply list_elem_of_filter in Hp as [Hs Hp]. exists p. auto.
    - intros [(p & Hp & Hs & E)|H]; [left|right; exact H].
      exists p. split; [apply list_elem_of_filter; auto|exact E]. }
  rewrite !map_map. cbn [fst snd]. rewrite map_id.
  split; [apply group_keys_NoDup|]. split; [apply group_keys_sorted|].
  split; [exact HK|].
  split.
  - intros k tc nb Hin. apply elem_of_map_iff in Hin as (k' & Heq & _).
    injection Heq as -> -> ->. unfold conf. rewrite list_filter_filter. split; reflexivity.
  - assert (Hc : qsum (map (fun k => qsum (map (fun p => default 0 (p_total_eur p))
                                            (filter (fun p => p_month p = k) conf))) K) ==
                 qsum (map (fun p => default 0 (p_total_eur p)) conf)).
    { apply group_sum_total_aux; [apply group_keys_NoDup|].
      intros p Hp. apply HK. left. exists p.
      unfold conf in Hp. apply list_elem_of_filter in Hp as [Hs Hp]. auto. }
    assert (Hr : qsum (map (fun k => qsum (map (fun r => default 0 (r_mrr r))
                                            (filter (fun r => r_month r = k) rs))) K) ==
                 qsum (map (fun r => default 0 (r_mrr r)) rs)).
    { apply group_sum_total_aux; [apply group_keys_NoDup|].
      intros r Hr. apply HK. right. exists r. auto. }
    split; [exact Hc|].
    rewrite (qsum_map_sub (fun k => qsum (map (fun p => default 0 (p_total_eur p))
                                            (filter (fun p => p_month p = k) conf)))
                          (fun k => qsum (map (fun r => default 0 (r_mrr r))
                                            (filter (fun r => r_month r = k) rs)))).
    rewrite Hc, Hr. reflexivity.
Qed.

End NetBurnProofs.

Module CacLtvProofs.
Import Frame Costs CacLtv FrameProofs FinalMergeProofs CacProofs EbitdaProofs ExtraLemmas.

(** X6. When each input has at most one row per month, [calculate_cac_ltv_ratio]
    has one row per month of either input, ascending; its value is
    ltv / cac when the month's [cac] (NaN or missing read as 0) is positive,
    and 0 otherwise. *)
Theorem cac_ltv_ratio_spec (df_ltv df_cac : Frame) :
  NoDup (keys df_ltv) -> NoDup (keys df_cac) ->
  let out := calculate_cac_ltv_ratio df_ltv df_cac in
  NoDup (map fst out) /\ StronglySorted le (map fst out) /\
  (forall k, k ∈ map fst out <-> k ∈ keys df_ltv \/ k ∈ keys df_cac) /\
  (forall k v, (k, v) ∈ out ->
     let l := default 0 (cell df_ltv k "ltv") in
     let c := default 0 (cell df_cac k "cac") in
     (0 < c /\ v = l / c) \/ (c <= 0 /\ v = 0)).
Proof.
  intros Hl Hc. cbv zeta. unfold calculate_cac_ltv_ratio.
  assert (Hl' : NoDup (keys (select ["ltv"] df_ltv))) by (rewrite keys_select; exact Hl).
  assert (Hc' : NoDup (keys (select ["cac"] df_cac))) by (rewrite keys_select; exact Hc).
  rewrite merge_rows by assumption. rewrite !keys_select, !map_map. cbn [fst snd].
  rewrite map_id.
  split; [apply group_keys_NoDup|]. split; [apply group_keys_sorted|].
  split; [intros k; rewrite group_keys_elem, elem_of_app; reflexivity|].
  intros k v Hin. apply elem_of_map_iff in Hin as (k' & Heq & _).
  injection Heq as <- ->.
  destruct (merged_pair_value (select ["ltv"] df_ltv) (select ["cac"] df_cac) "ltv" "cac" k
              (WF_select _ _ Hl) (WF_select _ _ Hc) eq_refl eq_refl ltac:(discriminate))
    as [E1 E2].
  rewrite E1, E2, !cell_select by (assumption || (apply list_elem_of_singleton; reflexivity)).
  destruct (Qlt_le_dec 0 (default 0 (cell df_cac k "cac"))) as [H|H]; [left|right]; auto.
Qed.

Lemma of_series_row (c : string) (xs : list (Month * Q)) (k : Month) a :
  (k, a) ∈ rows (of_series c xs) -> exists v, a = [(c, Some v)] /\ (k, v) ∈ xs.
Proof.
  unfold of_series. cbn [rows]. intros H.
  apply elem_of_map_iff in H as ([k' v] & Heq & Hv). injection Heq as -> ->.
  exists v. auto.
Qed.

(** The CAC of a month in which no customer started is 0. *)
Lemma cac_zero_without_new_customers (st : Store) (cus : list Customer) (k : Month) row :
  (k, row) ∈ snd (calculate_cac st cus) ->
  (forall cu, cu ∈ cus -> customer_since cu <> Some k) -> cac row = 0.
Proof.
  intros Hin Hnc. rewrite calculate_cac_eq in Hin.
  apply elem_of_map_iff in Hin as ([k' a] & Heq & Hr). cbn [fst snd] in Heq.
  injection Heq as <- ->. cbn [cac].
  apply merge_outer_row_cases in Hr as (la & ra & -> & Hla & _).
  assert (Hn : default 0 (col_lookup "new_customers" (fill_row (la ++ ra))) = 0).
  { destruct Hla as [->|Hla].
    - reflexivity.
    - apply of_series_row in Hla as (n & -> & Hn). exfalso.
      assert (Hk : k ∈ map fst (new_customers cus))
        by (apply elem_of_map_iff; exists (k, n); auto).
      apply new_customers_month in Hk as (cu & Hcu & Hs). exact (Hnc cu Hcu Hs). }
  rewrite Hn. destruct (Qlt_le_dec 0 0) as [H|_]; [exfalso; exact (Qlt_irrefl 0 H)|reflexivity].
Qed.

(** X7. In the pipeline's use of [calculate_cac_ltv_ratio] on the table of
    [calculate_cac], every month in which no customer has its
    [customer-since] date gets ratio 0, whatever its LTV. *)
Theorem cac_ltv_ratio_zero_without_new_customers (df_ltv : Frame) (st : Store)
    (cus : list Customer) (k : Month) (v : Q) :
  (k, v) ∈ calculate_cac_ltv_ratio df_ltv (cac_table (snd (calculate_cac st cus))) ->
  (forall cu, cu ∈ cus -> customer_since cu <> Some k) -> v = 0.
Proof.
  intros Hin Hnc. unfold calculate_cac_ltv_ratio in Hin.
  apply elem_of_map_iff in Hin as ([k' a] & Heq & Hr). cbn [fst snd] in Heq.
  injection Heq as <- ->.
  apply merge_outer_row_cases in Hr as (la & ra & -> & Hla & Hra).
  assert (Hd : "cac" ∉ map fst la).
  { destruct Hla as [->|Hla].
    - simpl. rewrite list_elem_of_singleton. discriminate.
    - rewrite (select_row_dom _ _ _ _ Hla). rewrite list_elem_of_singleton. discriminate. }
  rewrite (col_lookup_fill_skip "cac" la ra Hd).
  assert (Hc : default 0 (col_lookup "cac" (fill_row ra)) = 0).
  { destruct Hra as [->|Hra]; [reflexivity|].
    unfold select in Hra. cbn [rows] in Hra.
    apply elem_of_map_iff in Hra as ([k0 b] & Heq & Hb). cbn [fst snd] in Heq.
    injection Heq as <- ->.
    unfold cac_table in Hb. cbn [rows] in Hb.
    apply elem_of_map_iff in Hb as ([k1 row] & Heq & Hrow). cbn [fst snd] in Heq.
    injection Heq as <- ->. cbn.
    rewrite (cac_zero_without_new_customers st cus k row Hrow Hnc). reflexivity. }
  rewrite Hc. destruct (Qlt_le_dec 0 0) as [H|_]; [exfalso; exact (Qlt_irrefl 0 H)|reflexivity].
Qed.

(** Witness of [cac_ltv_ratio_spec]. *)
Lemma cac_ltv_ratio_spec_witness :
  2%nat ∈ map fst (calculate_cac_ltv_ratio
                     (mkFrame ["ltv"] [(1%nat, [("ltv", Some 300)])])
                     (mkFrame ["cac"] [(1%nat, [("cac", Some 100)]); (2%nat, [("cac", Some 0)])])).
Proof.
  destruct (cac_ltv_ratio_spec
              (mkFrame ["ltv"] [(1%nat, [("ltv", Some 300)])])
              (mkFrame ["cac"] [(1%nat, [("cac", Some 100)]); (2%nat, [("cac", Some 0)])])
              ltac:(refine (bool_decide_unpack _ _); vm_compute; exact I)
              ltac:(refine (bool_decide_unpack _ _); vm_compute; exact I)) as (_ & _ & H & _).
  apply H. right. apply list_elem_of_In. simpl. auto.
Defined.

(** Witness of [cac_ltv_ratio_zero_without_new_customers]. *)
Lemma cac_ltv_ratio_zero_without_new_customers_witness :
  exists v, (2%nat, v) ∈ calculate_cac_ltv_ratio (mkFrame ["ltv"] [(2%nat, [("ltv", Some 500)])])
                (cac_table (snd (calculate_cac (mkStore [] [])
                                   [mkCustomer (Some "u1") (Some 1%nat)]))) /\ v = 0.
Proof.
  exists 0.
  assert (Hin : (2%nat, 0) ∈ calculate_cac_ltv_ratio (mkFrame ["ltv"] [(2%nat, [("ltv", Some 500)])])
                (cac_table (snd (calculate_cac (mkStore [] [])
                                   [mkCustomer (Some "u1") (Some 1%nat)])))).
  { apply list_elem_of_In. vm_compute. auto. }
  split; [exact Hin|].
  apply (cac_ltv_ratio_zero_without_new_customers _ _ _ 2%nat 0 Hin).
  intros cu Hcu. apply list_elem_of_singleton in Hcu. subst cu. simpl. congruence.
Defined.

End CacLtvProofs.

Module PipelineProofs.
Import Costs Pipeline CostsProofs PurityProofs.

Lemma clean_contact_idem (c : Contact) : clean_contact (clean_contact c) = clean_contact c.
Proof. destruct c as [i t ty]. reflexivity. Qed.

(** A tagged-cost calculator on a table whose contacts are already cleaned
    leaves it as it is and returns what it returns on the original table. *)
Lemma tagged_cost_cleaned (tag : string) (st : Store) :
  tagged_cost tag (mkStore (map clean_contact (contacts st)) (purchases st)) =
  (mkStore (map clean_contact (contacts st)) (purchases st), snd (tagged_cost tag st)).
Proof.
  unfold tagged_cost. cbn [contacts purchases fst snd].
  rewrite map_map.
  rewrite (List.map_ext (fun x => clean_contact (clean_contact x)) clean_contact
             clean_contact_idem).
  reflexivity.
Qed.

(** X8. Steps 13, 15, 16 and 17 of [run_pipeline] ([calculate_cac],
    [calculate_opex], [calculate_cogs], [calculate_financial_costs]) share
    the contacts table, which each of them rewrites in place; yet each
    returns what it returns on the original tables, and the table is left
    as one cleaning pass leaves it. *)
Theorem run_cost_calculators_independent (st : Store) (cus : list Customer) :
  run_cost_calculators st cus =
  (mkStore (map clean_contact (contacts st)) (purchases st),
   (snd (calculate_cac st cus), snd (calculate_opex st), snd (calculate_cogs st),
    snd (calculate_financial_costs st))).
Proof.
  unfold run_cost_calculators.
  pose proof (calculate_cac_store st cus) as Hs. rewrite tagged_cost_store in Hs.
  destruct (calculate_cac st cus) as [st1 dc]. cbn [fst] in Hs. subst st1.
  unfold calculate_opex, calculate_cogs, calculate_financial_costs.
  rewrite !tagged_cost_cleaned. reflexivity.
Qed.

End PipelineProofs.

Module SnapshotProofs.
Import Ledger.

Lemma find_first {A} (f : A -> bool) (l : list A) (x : A) :
  List.find f l = Some x ->
  exists i, l !! i = Some x /\ f x = true /\
    forall j y, (j < i)%nat -> l !! j = Some y -> f y = false.
Proof.
  induction l as [|a l IH]; simpl; [discriminate|].
  destruct (f a) eqn:E.
  - intros H. injection H as <-. exists 0%nat. split; [reflexivity|]. split; [exact E|].
    intros j y Hj. lia.
  - intros H. destruct (IH H) as (i & Hi & Hx & Hb). exists (S i).
    split; [exact Hi|]. split; [exact Hx|].
    intros [|j] y Hj Hy; simpl in Hy.
    + injection Hy as <-. exact E.
    + apply (Hb j y); [lia|exact Hy].
Qed.

Lemma has_column_spec (recs : list SnapshotRecord) (c : string) :
  has_column recs c = true <-> exists r, r ∈ recs /\ field_lookup c r <> None.
Proof.
  unfold has_column. rewrite existsb_exists.
  split; intros (r & Hr & H); exists r; rewrite list_elem_of_In in *; split; try exact Hr;
    destruct (field_lookup c r); try discriminate; try reflexivity; congruence.
Qed.

(** X9. [load_snapshot_total_eur] raises [ValueError] exactly when no
    record has any of the fields [balance_eur], [balance], [amount],
    [currentBalance], [available] (an empty snapshot included). Otherwise it
    uses the first of these fields, in that order, that some record has, and
    returns the sum of its values over all records, a record lacking the
    field or holding a non-numeric value counting as 0. *)
Theorem load_snapshot_total_eur_spec (recs : list SnapshotRecord) :
  (forall e, load_snapshot_total_eur recs = inl e ->
     e = ValueError "Snapshot file does not contain a recognizable balance column.") /\
  ((exists e, load_snapshot_total_eur recs = inl e) <->
     forall c r, c ∈ balance_fields -> r ∈ recs -> field_lookup c r = None) /\
  (forall t, load_snapshot_total_eur recs = inr t ->
     exists i c, balance_fields !! i = Some c /\
       (exists r, r ∈ recs /\ field_lookup c r <> None) /\
       (forall j c', (j < i)%nat -> balance_fields !! j = Some c' ->
          forall r, r ∈ recs -> field_lookup c' r = None) /\
       t = qsum (map (fun r => match field_lookup c r with
                               | Some (Some v) => v
                               | _ => 0
                               end) recs)).
Proof.
  unfold load_snapshot_total_eur.
  destruct (List.find (has_column recs) balance_fields) as [c|] eqn:Ef.
  - split; [intros e He; discriminate He|]. split.
    + split; [intros (e & He); discriminate He|].
      intros Hall. exfalso.
      apply find_some in Ef as [Hin Hc]. apply has_column_spec in Hc as (r & Hr & Hl).
      apply Hl. apply Hall; [apply list_elem_of_In; exact Hin|exact Hr].
    + intros t Ht. injection Ht as <-.
      destruct (find_first _ _ _ Ef) as (i & Hi & Hc & Hb).
      exists i, c. split; [exact Hi|]. split; [apply has_column_spec; exact Hc|].
      split; [|reflexivity].
      intros j c' Hj Hc' r Hr.
      specialize (Hb j c' Hj Hc').
      destruct (field_lookup c' r) eqn:E; [|reflexivity].
      exfalso. assert (H : has_column recs c' = true)
        by (apply has_column_spec; exists r; rewrite E; split; [exact Hr|discriminate]).
      congruence.
  - split; [intros e He; injection He as <-; reflexivity|]. split.
    + split; [|intros _; eexists; reflexivity].
      intros _ c r Hc Hr.
      pose proof (find_none _ _ Ef c (proj1 (list_elem_of_In _ _) Hc)) as Hn.
      destruct (field_lookup c r) eqn:E; [|reflexivity].
      exfalso. assert (H : has_column recs c = true)
        by (apply has_column_spec; exists r; rewrite E; split; [exact Hr|discriminate]).
      congruence.
    + intros t Ht. discriminate Ht.
Qed.

End SnapshotProofs.

Module LedgerProofs.
Import Ledger CashProofs ExtraLemmas.

Lemma rev_cum_nil (l : list Q) : rev_cum l = [] <-> l = [].
Proof.
  unfold rev_cum. split.
  - intros H. destruct l as [|x l] using rev_ind; [reflexivity|].
    rewrite rev_app_distr in H. simpl in H. destruct (rev (cumsum_from (0 + x) _)); discriminate.
  - intros ->. reflexivity.
Qed.

Lemma monthly_change_nil (rows : list LedgerEntry) :
  monthly_change rows = [] <-> forall e, e ∈ rows -> is_cash_account e = false.
Proof.
  unfold monthly_change.
  destruct (group_sum_keys_spec le_month (fun e => le_debit e - le_credit e)
              (filter (fun e => is_cash_account e = true) rows)) as (_ & _ & Hin).
  split.
  - intros H e He. destruct (is_cash_account e) eqn:E; [|reflexivity]. exfalso.
    assert (Hm : le_month e ∈ map fst (group_sum le_month (fun e => le_debit e - le_credit e)
                   (filter (fun e => is_cash_account e = true) rows))).
    { apply Hin. exists e. split; [apply list_elem_of_filter; auto|reflexivity]. }
    rewrite H in Hm. inversion Hm.
  - intros H. destruct (group_sum _ _ _) as [|[m v] t] eqn:E; [reflexivity|]. exfalso.
    assert (Hm : m ∈ map fst ((m, v) :: t)) by (left).
    apply Hin in Hm as (e & He & _). apply list_elem_of_filter in He as [Hc He].
    rewrite (H e He) in Hc. discriminate Hc.
Qed.

(** X10. With both input files present and at least one flattened ledger
    entry, [build_monthly_from_ledger] raises the snapshot's error when the
    snapshot has no balance column; otherwise it raises [IndexError]
    (from [iloc[0]] on an empty table) exactly when no entry is on a
    "57"-prefixed account, and else returns the rounded reconstruction
    anchored at the snapshot total. *)
Theorem build_monthly_errors (fs : Files) windows snap :
  raw_ledger fs = Some windows -> raw_snapshot fs = Some snap -> flatten windows <> [] ->
  (forall e, load_snapshot_total_eur snap = inl e -> build_monthly_from_ledger fs = inl e) /\
  (forall a, load_snapshot_total_eur snap = inr a ->
     (build_monthly_from_ledger fs = inl IndexError <->
        forall e, e ∈ flatten windows -> is_cash_account e = false) /\
     ((exists e, e ∈ flatten windows /\ is_cash_account e = true) ->
        build_monthly_from_ledger fs =
          inr (reconstruct_rounded a (monthly_change (flatten windows))))).
Proof.
  intros Hl Hs Hne. unfold build_monthly_from_ledger. rewrite Hl, Hs.
  destruct (flatten windows) as [|x rows] eqn:Ef; [congruence|].
  rewrite <- Ef.
  split; [intros e He; rewrite He; reflexivity|].
  intros a Ha. rewrite Ha.
  destruct (rev_cum (map snd (monthly_change (flatten windows)))) as [|y ys] eqn:Er.
  - apply (proj1 (rev_cum_nil _)) in Er. apply map_eq_nil in Er.
    split; [split; [intros _|reflexivity]; apply monthly_change_nil; exact Er|].
    intros (e & He & Hc). apply monthly_change_nil with (e := e) in Er; [congruence|exact He].
  - split; [|intros _; reflexivity].
    split; [discriminate|]. intros H. exfalso.
    apply monthly_change_nil in H. rewrite H in Er. discriminate Er.
Qed.

(** X11. When [build_monthly_from_ledger] succeeds with the snapshot total
    [a], its series is empty exactly when the ledger has no entries, and
    otherwise its last row is the latest month, whose balance is [a]
    rounded to cents. *)
Theorem build_latest_month_is_snapshot (fs : Files) windows snap a out :
  raw_ledger fs = Some windows -> raw_snapshot fs = Some snap ->
  load_snapshot_total_eur snap = inr a -> build_monthly_from_ledger fs = inr out ->
  (out = [] <-> flatten windows = []) /\
  (out <> [] -> exists m, last out = Some (m, round2 a) /\
     forall m', m' ∈ map fst out -> (m' <= m)%nat).
Proof.
  intros Hl Hs Ha Hb.
  pose proof (build_months fs windows snap out Hl Hs Hb) as Hm.
  unfold build_monthly_from_ledger in Hb. rewrite Hl, Hs in Hb.
  destruct (flatten windows) as [|x rows] eqn:Ef.
  - injection Hb as <-. split; [split; reflexivity|]. intros H. congruence.
  - rewrite Ha in Hb. rewrite <- Ef in Hb.
    destruct (rev_cum (map snd (monthly_change (flatten windows)))) as [|y ys] eqn:Er;
      [discriminate Hb|].
    injection Hb as <-.
    set (mc := monthly_change (flatten windows)) in *.
    assert (Hne : mc <> []) by (intros E; rewrite E in Er; discriminate Er).
    assert (Hlen : length (reconstruct_rounded a mc) = length mc)
      by (unfold reconstruct_rounded; rewrite length_map; apply length_reconstruct).
    assert (Hne' : reconstruct_rounded a mc <> []).
    { intros E. apply Hne. apply length_zero_iff_nil. rewrite <- Hlen, E. reflexivity. }
    split; [split; [intros E; congruence|discriminate]|]. intros _.
    destruct (last (reconstruct_rounded a mc)) as [[m r]|] eqn:El.
    + exists m.
      assert (Hlast : reconstruct_rounded a mc !! pred (length mc) = Some (m, r))
        by (rewrite <- Hlen, <- last_lookup; exact El).
      apply reconstruct_rounded_lookup in Hlast as (b & Hrec & ->).
      apply reconstruct_lookup in Hrec as [_ Hb].
      apply balances_lookup in Hb.
      assert (Hd : drop (S (pred (length mc))) (map snd mc) = []).
      { apply drop_ge. rewrite length_map. destruct mc; [congruence|simpl; lia]. }
      rewrite Hd in Hb. cbn [qsum] in Hb.
      split; [f_equal; f_equal; apply round2_Qeq; rewrite Hb; ring|].
      apply sorted_last_max.
      * rewrite Hm. unfold mc, monthly_change. apply group_sum_keys_spec.
      * rewrite last_lookup, length_map, lookup_map.
        rewrite <- last_lookup, El. reflexivity.
    + exfalso. apply last_None in El. exact (Hne' El).
Qed.

(** X12. The net changes of [monthly_change] add up to the total debit minus
    the total credit of the entries on "57"-prefixed accounts. *)
Theorem monthly_change_total (rows : list LedgerEntry) :
  qsum (map snd (monthly_change rows)) ==
  qsum (map le_debit (filter (fun e => is_cash_account e = true) rows)) -
  qsum (map le_credit (filter (fun e => is_cash_account e = true) rows)).
Proof. unfold monthly_change. rewrite group_sum_total. apply qsum_map_sub. Qed.

(** Witness of [build_monthly_errors]. *)
Lemma build_monthly_errors_witness :
  build_monthly_from_ledger
    (mkFiles (Some [mkWindow 1%nat [mkRawEntry (Some "600") (Some 5) None]])
             (Some [[("balance", Some 100)]])) = inl IndexError.
Proof.
  destruct (build_monthly_errors
              (mkFiles (Some [mkWindow 1%nat [mkRawEntry (Some "600") (Some 5) None]])
                       (Some [[("balance", Some 100)]]))
              [mkWindow 1%nat [mkRawEntry (Some "600") (Some 5) None]]
              [[("balance", Some 100)]] eq_refl eq_refl ltac:(vm_compute; discriminate))
    as [_ H].
  apply (proj2 (proj1 (H 100 ltac:(vm_compute; reflexivity)))).
  intros e He. vm_compute in He. apply list_elem_of_singleton in He. subst e.
  vm_compute. reflexivity.
Defined.

(** Witness of [build_latest_month_is_snapshot]. *)
Lemma build_latest_month_is_snapshot_witness :
  exists out m,
    build_monthly_from_ledger
      (mkFiles (Some [mkWindow 1%nat [mkRawEntry (Some "5720") (Some 10) None];
                      mkWindow 2%nat [mkRawEntry (Some "5720") None (Some 3)]])
               (Some [[("balance", Some 100)]])) = inr out /\
    last out = Some (m, round2 100).
Proof.
  set (ws := [mkWindow 1%nat [mkRawEntry (Some "5720") (Some 10) None];
              mkWindow 2%nat [mkRawEntry (Some "5720") None (Some 3)]]).
  set (snap := [[("balance", Some 100)]] : list SnapshotRecord).
  set (out := reconstruct_rounded 100 (monthly_change (flatten ws))).
  assert (Hb : build_monthly_from_ledger (mkFiles (Some ws) (Some snap)) = inr out)
    by (vm_compute; reflexivity).
  destruct (build_latest_month_is_snapshot (mkFiles (Some ws) (Some snap)) ws snap 100 out
              eq_refl eq_refl ltac:(vm_compute; reflexivity) Hb) as [_ H].
  destruct (H ltac:(vm_compute; discriminate)) as (m & Hl & _).
  exists out, m. split; [exact Hb|exact Hl].
Defined.

End LedgerProofs.

Module RunwayNonnegProofs.
Import Frame Ebitda Runway ExtraLemmas.

Lemma Qdiv_nonneg (x y : Q) : 0 <= x -> 0 <= y -> 0 <= x / y.
Proof.
  intros Hx Hy. unfold Qdiv. apply Qmult_le_0_compat; [exact Hx|].
  apply Qinv_le_0_compat. exact Hy.
Qed.

Lemma runway_cell_nonneg (cv : Q) (ob : option Q) :
  0 <= cv -> (forall b, ob = Some b -> 0 <= b) ->
  forall r, runway_cell cv ob = Some r -> 0 <= r.
Proof.
  intros Hc Hb r Hr. destruct ob as [b|]; [|discriminate Hr]. simpl in Hr.
  destruct (Qeq_bool b 0); [discriminate Hr|]. injection Hr as <-.
  apply round2_nonneg, Qdiv_nonneg; [exact Hc|apply Hb; reflexivity].
Qed.

(** X13. Fed with the burn rates of [calculate_burn_rate] (absolute
    values), [calculate_runway] never reports a negative runway when its
    cash is not negative: with a constant cash amount, and with a cash table
    whose balances are not negative, where the cash column is not negative
    either. *)
Theorem runway_nonneg (ebitda : list (Month * Q)) (c : Q) (cash : list (Month * option Q)) :
  0 <= c -> (forall k w, (k, Some w) ∈ cash -> 0 <= w) ->
  let burn := map (fun p => (fst p, Some (snd p))) (calculate_burn_rate ebitda) in
  (forall k cv r, (k, cv, Some r) ∈ calculate_runway burn (ConstCash c) -> 0 <= r) /\
  (forall k cv o, (k, cv, o) ∈ calculate_runway burn (CashFrame cash) ->
     0 <= cv /\ forall r, o = Some r -> 0 <= r).
Proof.
  intros Hc Hcash. cbv zeta. unfold calculate_runway, calculate_burn_rate.
  rewrite !map_map. cbn [fst snd default].
  split.
  - intros k cv r Hin.
    apply elem_of_map_iff in Hin as ([k' x] & Heq & _). cbn [fst snd] in Heq.
    injection Heq as _ -> Hr.
    apply (runway_cell_nonneg c (Some (Qabs x)) Hc); [|symmetry; exact Hr].
    intros b Hb. injection Hb as <-. apply Qabs_nonneg.
  - intros k cv o Hin.
    apply elem_of_map_iff in Hin as ([k' a] & Heq & Hr). cbn [fst snd] in Heq.
    injection Heq as <- -> ->.
    apply merge_outer_row_cases in Hr as (la & ra & -> & Hla & Hra).
    assert (Hra' : exists oc, ra = [("cash_balance_eur", oc)] /\
                              forall w, oc = Some w -> 0 <= w).
    { destruct Hra as [->|Hra]; [exists None; split; [reflexivity|discriminate]|].
      unfold group_last in Hra. cbn [rows] in Hra.
      apply elem_of_map_iff in Hra as (k0 & Heq & _). injection Heq as <- ->.
      eexists. split; [reflexivity|]. apply last_valid_nonneg.
      apply Forall_forall. intros ow How w ->.
      apply elem_of_map_iff in How as ([k1 o1] & E & Hx). cbn [snd] in E. subst o1.
      apply list_elem_of_filter in Hx as [_ Hx]. exact (Hcash k1 w Hx). }
    assert (Hla' : exists ob, la = [("burn_rate", ob)] /\ forall w, ob = Some w -> 0 <= w).
    { destruct Hla as [->|Hla]; [exists None; split; [reflexivity|discriminate]|].
      unfold of_series in Hla. cbn [rows] in Hla.
      apply elem_of_map_iff in Hla as ([k0 v] & Heq & Hv). injection Heq as <- ->.
      eexists. split; [reflexivity|]. intros w Hw. injection Hw as <-.
      apply elem_of_map_iff in Hv as ([k1 x] & E & _). injection E as _ ->.
      apply Qabs_nonneg. }
    destruct Hra' as (oc & -> & Hoc). destruct Hla' as (ob & -> & Hob).
    simpl.
    assert (Hcv : 0 <= default 0 oc) by (destruct oc as [w|]; [apply Hoc; reflexivity|apply Qle_refl]).
    split; [exact Hcv|]. apply runway_cell_nonneg; [exact Hcv|exact Hob].
Qed.

(** Witness of [runway_nonneg]. *)
Lemma runway_nonneg_witness :
  (1%nat, 300, Some (round2 (300 / 100))) ∈
    calculate_runway (map (fun p => (fst p, Some (snd p))) (calculate_burn_rate [(1%nat, -100)]))
                     (CashFrame [(1%nat, Some 300); (2%nat, None)]) /\
  0 <= 300 /\ 0 <= round2 (300 / 100).
Proof.
  assert (Hin : (1%nat, 300, Some (round2 (300 / 100))) ∈
    calculate_runway (map (fun p => (fst p, Some (snd p))) (calculate_burn_rate [(1%nat, -100)]))
                     (CashFrame [(1%nat, Some 300); (2%nat, None)]))
    by (apply list_elem_of_In; vm_compute; left; reflexivity).
  split; [exact Hin|].
  destruct (runway_nonneg [(1%nat, -100)] 500 [(1%nat, Some 300); (2%nat, None)]
              ltac:(unfold Qle; simpl; lia)
              ltac:(intros k w H; apply list_elem_of_In in H; simpl in H;
                    destruct H as [H|[H|[]]];
                    [injection H as _ <-; unfold Qle; simpl; lia|discriminate H]))
    as [_ H].
  destruct (H _ _ _ Hin) as [H1 H2]. split; [exact H1|apply H2; reflexivity].
Defined.

End RunwayNonnegProofs.

Module CostTotalsProofs.
Import Frame Costs FrameProofs FinalMergeProofs CostsProofs CacProofs ExtraLemmas.

Lemma tagged_cost_total (tag : string) (st : Store) :
  qsum (map snd (snd (tagged_cost tag st))) ==
  qsum (map (fun p => default 0 (p_total_eur p))
         (filter (fun p => is_tagged_purchase (tagged_ids tag (map clean_contact (contacts st))) p = true)
                 (purchases st))).
Proof. rewrite tagged_cost_out. apply group_sum_total. Qed.

(** X14. The monthly rows of [calculate_opex], [calculate_cogs],
    [calculate_financial_costs], and the [cac_costs] column of
    [calculate_cac], each add up to the [total_eur] (NaN as 0) of all the
    confirmed purchases that the calculator attributes to its tag: none is
    lost or counted twice by the grouping or by the merge with the
    new-customer counts. *)
Theorem cost_totals (st : Store) (cus : list Customer) :
  let total tag :=
    qsum (map (fun p => default 0 (p_total_eur p))
           (filter (fun p => is_tagged_purchase
                               (tagged_ids tag (map clean_contact (contacts st))) p = true)
                   (purchases st))) in
  qsum (map snd (snd (calculate_opex st))) == total "opex" /\
  qsum (map snd (snd (calculate_cogs st))) == total "cogs" /\
  qsum (map snd (snd (calculate_financial_costs st))) == total "costes financieros" /\
  qsum (map (fun r => cac_costs (snd r)) (snd (calculate_cac st cus))) == total "cac".
Proof.
  cbv zeta. split; [apply tagged_cost_total|].
  split; [apply tagged_cost_total|]. split; [apply tagged_cost_total|].
  rewrite calculate_cac_eq, tagged_cost_out.
  set (sel := filter (fun p => is_tagged_purchase
                               (tagged_ids "cac" (map clean_contact (contacts st))) p = true)
                     (purchases st)).
  set (Cs := group_sum p_month (fun p => default 0 (p_total_eur p)) sel).
  set (N := new_customers cus).
  assert (HN : NoDup (map fst N)) by (unfold N; rewrite new_customers_keys; apply group_keys_NoDup).
  assert (HC : NoDup (map fst Cs)) by apply group_sum_keys_spec.
  rewrite merge_rows by (rewrite keys_of_series; assumption).
  rewrite !keys_of_series, !map_map. cbn [fst snd cac_costs].
  rewrite (qsum_map_ext _ (fun k => qsum (map (fun p => default 0 (p_total_eur p))
                                             (filter (fun p => p_month p = k) sel)))).
  - apply group_sum_total_aux; [apply group_keys_NoDup|].
    intros p Hp. apply group_keys_elem, elem_of_app. right.
    apply group_sum_keys_spec. exists p. auto.
  - intros k _.
    destruct (merged_pair_value (of_series "new_customers" N) (of_series "cac_costs" Cs)
                "new_customers" "cac_costs" k (WF_of_series _ _ HN) (WF_of_series _ _ HC)
                eq_refl eq_refl ltac:(discriminate)) as [_ E2].
    rewrite E2. unfold Cs. rewrite cell_series_group. reflexivity.
Qed.

End CostTotalsProofs.

